(** * searCrawl: batch crawl orchestrator and evasion policy

    A shallow embedding of [src/searcrawl/anti_crawl.py] and of the
    orchestration code of [src/searcrawl/crawler.py], with the properties
    stated by the specification.

    Conventions.
    - Python [str] is [string]; a character is a code point below 256.
    - Python [list] is [list]; a [dict] returned by the cache is a [gmap].
    - A Python exception is the [Raise] case of [res].
    - [random.choice] reads its index from an explicit stream of draws. *)

From Stdlib Require Import Ascii String Lia.
From stdpp Require Import base option list gmap strings.

Local Open Scope string_scope.
Local Open Scope list_scope.

(** ** Results and exceptions *)

(** [AllCrawlsFailed] is [HTTPException(status_code=500, detail="All URL
    crawls failed")]; [HTTP500 e] is what the outer handler of [crawl_urls]
    makes of any exception [e]: [HTTPException(status_code=500,
    detail=str(e))]. *)
Inductive exn : Type :=
| IndexError
| AllCrawlsFailed
| HTTP500 (cause : exn).

Inductive res (A : Type) : Type :=
| Ok (a : A)
| Raise (e : exn).
Arguments Ok {A} a.
Arguments Raise {A} e.

Definition res_bind {A B} (m : res A) (f : A -> res B) : res B :=
  match m with
  | Ok a => f a
  | Raise e => Raise e
  end.

(** ** random: the stream of raw draws *)

Module Random.

(** The generator state: the raw draws still to come.  An exhausted
    stream keeps answering 0. *)
Definition rng : Type := list nat.

Definition next (g : rng) : nat * rng :=
  match g with
  | [] => (0, [])
  | r :: g' => (r, g')
  end.

(** [random.choice(seq)]: [seq[randbelow(len(seq))]]; an empty sequence
    raises IndexError. *)
Definition choice {A} (xs : list A) (g : rng) : res (A * rng) :=
  match xs with
  | [] => Raise IndexError
  | x0 :: _ =>
      let '(r, g') := next g in
      Ok (nth (r mod length xs) xs x0, g')
  end.

End Random.

(** ** anti_crawl.py *)

Module AntiCrawl.

Inductive ProxyType : Type := HTTP | HTTPS | SOCKS5.

Definition ProxyType_value (t : ProxyType) : string :=
  match t with
  | HTTP => "http"
  | HTTPS => "https"
  | SOCKS5 => "socks5"
  end.

Record ProxyConfig : Type := {
  url : string;
  proxy_type : ProxyType;
  username : option string;
  password : option string
}.

(** Truthiness of an [Optional[str]]: neither [None] nor empty. *)
Definition truthy_str (o : option string) : bool :=
  match o with
  | Some (String _ _) => true
  | _ => false
  end.

Definition get_proxy_url (p : ProxyConfig) : string :=
  if truthy_str (username p) && truthy_str (password p)
  then ProxyType_value (proxy_type p) +:+ "://" +:+ default "" (username p)
         +:+ ":" +:+ default "" (password p) +:+ "@" +:+ url p
  else ProxyType_value (proxy_type p) +:+ "://" +:+ url p.

Definition DESKTOP_USER_AGENTS : list string := [
  "Mozilla/5.0 (Windows NT 10.0; Win64; x64) AppleWebKit/537.36 (KHTML, like Gecko) Chrome/120.0.0.0 Safari/537.36";
  "Mozilla/5.0 (Windows NT 10.0; Win64; x64) AppleWebKit/537.36 (KHTML, like Gecko) Chrome/119.0.0.0 Safari/537.36";
  "Mozilla/5.0 (Macintosh; Intel Mac OS X 10_15_7) AppleWebKit/537.36 (KHTML, like Gecko) Chrome/120.0.0.0 Safari/537.36";
  "Mozilla/5.0 (X11; Linux x86_64) AppleWebKit/537.36 (KHTML, like Gecko) Chrome/120.0.0.0 Safari/537.36";
  "Mozilla/5.0 (Windows NT 10.0; Win64; x64; rv:121.0) Gecko/20100101 Firefox/121.0";
  "Mozilla/5.0 (Macintosh; Intel Mac OS X 10_15_7) AppleWebKit/605.1.15 (KHTML, like Gecko) Version/17.1 Safari/605.1.15";
  "Mozilla/5.0 (X11; Linux x86_64; rv:121.0) Gecko/20100101 Firefox/121.0";
  "Mozilla/5.0 (Windows NT 10.0; Win64; x64) AppleWebKit/537.36 (KHTML, like Gecko) Edge/120.0.0.0"
].

Definition MOBILE_USER_AGENTS : list string := [
  "Mozilla/5.0 (iPhone; CPU iPhone OS 17_2 like Mac OS X) AppleWebKit/605.1.15 (KHTML, like Gecko) Version/17.2 Mobile/15E148 Safari/604.1";
  "Mozilla/5.0 (Linux; Android 13; SM-S901B) AppleWebKit/537.36 (KHTML, like Gecko) Chrome/120.0.0.0 Mobile Safari/537.36";
  "Mozilla/5.0 (Linux; Android 14; Pixel 8) AppleWebKit/537.36 (KHTML, like Gecko) Chrome/120.0.0.0 Mobile Safari/537.36";
  "Mozilla/5.0 (iPad; CPU OS 17_2 like Mac OS X) AppleWebKit/605.1.15 (KHTML, like Gecko) Version/17.2 Mobile/15E148 Safari/604.1"
].

(** *** UserAgentPool *)

Record UserAgentPool : Type := {
  custom_agents : list string;
  use_mobile : bool;
  pool : list string
}.

(** [_build_pool]: desktop agents, then mobile ones if asked for, then the
    custom ones. *)
Definition _build_pool (custom : list string) (mobile : bool) : list string :=
  let pool := DESKTOP_USER_AGENTS in
  let pool := if mobile then pool ++ MOBILE_USER_AGENTS else pool in
  let pool := match custom with [] => pool | _ => pool ++ custom end in
  pool.

(** [UserAgentPool.__init__]; [custom_agents or []] turns [None] into the
    empty list. *)
Definition UserAgentPool_init (custom : option (list string)) (mobile : bool)
  : UserAgentPool :=
  let custom := default [] custom in
  {| custom_agents := custom; use_mobile := mobile;
     pool := _build_pool custom mobile |}.

Definition UserAgentPool_get_random (p : UserAgentPool) (g : Random.rng)
  : res (string * Random.rng) :=
  Random.choice (pool p) g.

Definition UserAgentPool_get_all (p : UserAgentPool) : list string := pool p.

(** *** ProxyPool *)

Record ProxyPool : Type := {
  proxies : list ProxyConfig;
  current_index : nat
}.

Definition ProxyPool_init (ps : option (list ProxyConfig)) : ProxyPool :=
  {| proxies := default [] ps; current_index := 0 |}.

Definition ProxyPool_get_random (p : ProxyPool) (g : Random.rng)
  : res (option ProxyConfig * Random.rng) :=
  match proxies p with
  | [] => Ok (None, g)
  | _ => res_bind (Random.choice (proxies p) g)
           (fun '(x, g') => Ok (Some x, g'))
  end.

(** [get_next]: the entry under the cursor, and the cursor moved on by one
    modulo the pool size.  Indexing past the end raises. *)
Definition get_next (p : ProxyPool) : res (option ProxyConfig * ProxyPool) :=
  match proxies p with
  | [] => Ok (None, p)
  | _ =>
      match proxies p !! current_index p with
      | None => Raise IndexError
      | Some proxy =>
          Ok (Some proxy,
              {| proxies := proxies p;
                 current_index := (current_index p + 1) mod length (proxies p) |})
      end
  end.

Definition is_available (p : ProxyPool) : bool :=
  bool_decide (0 < length (proxies p)).

(** *** RequestHeaderGenerator *)

Definition ACCEPT_LANGUAGES : list string := [
  "en-US,en;q=0.9";
  "zh-CN,zh;q=0.9";
  "en-US,en;q=0.9,zh-CN;q=0.8"
].

Definition REFERERS : list string := [
  "https://www.google.com/";
  "https://www.bing.com/";
  "https://www.baidu.com/";
  "https://www.duckduckgo.com/"
].

(** A header mapping, in the insertion order of the Python dict. *)
Definition headers : Type := list (string * string).

(** [h[name]], when the key is there. *)
Fixpoint header (name : string) (h : headers) : option string :=
  match h with
  | [] => None
  | (k, v) :: h' => if String.eqb k name then Some v else header name h'
  end.

Definition generate_headers (user_agent : string) (include_referer : bool)
    (g : Random.rng) : res (headers * Random.rng) :=
  res_bind (Random.choice ACCEPT_LANGUAGES g) (fun '(lang, g) =>
    let hs := [
      ("User-Agent", user_agent);
      ("Accept", "text/html,application/xhtml+xml,application/xml;q=0.9,image/webp,*/*;q=0.8");
      ("Accept-Language", lang);
      ("Accept-Encoding", "gzip, deflate, br");
      ("DNT", "1");
      ("Connection", "keep-alive");
      ("Upgrade-Insecure-Requests", "1");
      ("Sec-Fetch-Dest", "document");
      ("Sec-Fetch-Mode", "navigate");
      ("Sec-Fetch-Site", "none");
      ("Cache-Control", "max-age=0")
    ] in
    if include_referer
    then res_bind (Random.choice REFERERS g) (fun '(ref, g) =>
           Ok (hs ++ [("Referer", ref)], g))
    else Ok (hs, g)).

(** *** AntiCrawlConfig

    The delay bounds are floats and play no part below; they are left
    out of the record. *)

Record AntiCrawlConfig : Type := {
  enable_proxy_rotation : bool;
  enable_user_agent_rotation : bool;
  enable_request_delay : bool;
  enable_random_headers : bool;
  enable_browser_headers : bool;
  proxy_rotation_mode : string;
  user_agent_pool : UserAgentPool;
  proxy_pool : ProxyPool
}.

Definition AntiCrawlConfig_init
    (enable_proxy_rotation enable_user_agent_rotation enable_request_delay
       enable_random_headers enable_browser_headers : bool)
    (proxy_rotation_mode : string)
    (custom_user_agents : option (list string))
    (use_mobile_agents : bool)
    (proxies : option (list ProxyConfig)) : AntiCrawlConfig :=
  {| enable_proxy_rotation := enable_proxy_rotation;
     enable_user_agent_rotation := enable_user_agent_rotation;
     enable_request_delay := enable_request_delay;
     enable_random_headers := enable_random_headers;
     enable_browser_headers := enable_browser_headers;
     proxy_rotation_mode := proxy_rotation_mode;
     user_agent_pool := UserAgentPool_init custom_user_agents use_mobile_agents;
     proxy_pool := ProxyPool_init proxies |}.

Definition set_proxy_pool (c : AntiCrawlConfig) (p : ProxyPool) : AntiCrawlConfig :=
  {| enable_proxy_rotation := enable_proxy_rotation c;
     enable_user_agent_rotation := enable_user_agent_rotation c;
     enable_request_delay := enable_request_delay c;
     enable_random_headers := enable_random_headers c;
     enable_browser_headers := enable_browser_headers c;
     proxy_rotation_mode := proxy_rotation_mode c;
     user_agent_pool := user_agent_pool c;
     proxy_pool := p |}.

(** [get_all()[0]]: the first entry of a copy of the pool. *)
Definition first_agent (p : UserAgentPool) : res string :=
  match UserAgentPool_get_all p with
  | [] => Raise IndexError
  | ua :: _ => Ok ua
  end.

Definition get_headers (c : AntiCrawlConfig) (g : Random.rng)
  : res (headers * Random.rng) :=
  res_bind
    (if enable_user_agent_rotation c
     then UserAgentPool_get_random (user_agent_pool c) g
     else res_bind (first_agent (user_agent_pool c)) (fun ua => Ok (ua, g)))
    (fun '(user_agent, g) =>
       if enable_random_headers c || enable_browser_headers c
       then generate_headers user_agent true g
       else Ok ([("User-Agent", user_agent)], g)).

(** [get_proxy]: the state is the configuration (its proxy cursor) and
    the generator. *)
Definition get_proxy (c : AntiCrawlConfig) (g : Random.rng)
  : res (option string * AntiCrawlConfig * Random.rng) :=
  if negb (enable_proxy_rotation c) || negb (is_available (proxy_pool c))
  then Ok (None, c, g)
  else if String.eqb (proxy_rotation_mode c) "sequential"
  then res_bind (get_next (proxy_pool c)) (fun '(proxy_config, p') =>
         Ok (get_proxy_url <$> proxy_config, set_proxy_pool c p', g))
  else res_bind (ProxyPool_get_random (proxy_pool c) g) (fun '(proxy_config, g') =>
         Ok (get_proxy_url <$> proxy_config, c, g')).

(** [n] calls of [get_proxy] in a row, with the values they returned. *)
Fixpoint get_proxy_times (n : nat) (c : AntiCrawlConfig) (g : Random.rng)
  : res (list (option string) * AntiCrawlConfig * Random.rng) :=
  match n with
  | 0 => Ok ([], c, g)
  | S n' =>
      res_bind (get_proxy c g) (fun '(o, c', g') =>
        res_bind (get_proxy_times n' c' g') (fun '(os, c'', g'') =>
          Ok (o :: os, c'', g'')))
  end.

End AntiCrawl.

(** ** re: the backtracking matcher behind [re.sub] *)

Module Re.

Definition LF : ascii := ascii_of_nat 10.

(** [str.isspace] and the class [\s] on code points below 256. *)
Definition isspace (c : ascii) : bool :=
  let n := nat_of_ascii c in
  ((9 <=? n) && (n <=? 13) || (28 <=? n) && (n <=? 32)
   || (n =? 133) || (n =? 160))%nat.

Inductive regex : Type :=
| Empty
| Lit (c : ascii)
| Dot (dotall : bool)
| Class (negated : bool) (cs : list ascii)
| Space
| Bol (multiline : bool)
| Cat (r1 r2 : regex)
| Alt (r1 r2 : regex)
| Star (greedy : bool) (r : regex)
| Group (n : nat) (r : regex)
| Backref (n : nat).

(** [r+] and [r{3}] for a group-free [r]. *)
Definition Plus (r : regex) : regex := Cat r (Star true r).
Definition Rep3 (r : regex) : regex := Cat r (Cat r r).

(** A position in the subject: the character before it, the characters
    from it on, and the groups captured so far. *)
Record mstate : Type := {
  prev : option ascii;
  rest : list ascii;
  groups : list (nat * list ascii)
}.

Definition step (s : mstate) : option (ascii * mstate) :=
  match rest s with
  | [] => None
  | c :: cs => Some (c, {| prev := Some c; rest := cs; groups := groups s |})
  end.

Definition one (p : ascii -> bool) (s : mstate) (k : mstate -> option mstate)
  : option mstate :=
  match step s with
  | Some (c, s') => if p c then k s' else None
  | None => None
  end.

(** [^]: the start of the subject and, with MULTILINE, after a newline. *)
Definition at_bol (multiline : bool) (s : mstate) : bool :=
  match prev s with
  | None => true
  | Some c => multiline && Ascii.eqb c LF
  end.

Definition consumed (s s' : mstate) : list ascii :=
  take (length (rest s) - length (rest s')) (rest s).

Definition set_group (n : nat) (g : list ascii) (s : mstate) : mstate :=
  {| prev := prev s; rest := rest s; groups := (n, g) :: groups s |}.

Fixpoint get_group (n : nat) (gs : list (nat * list ascii)) : option (list ascii) :=
  match gs with
  | [] => None
  | (i, g) :: gs' => if (i =? n)%nat then Some g else get_group n gs'
  end.

Fixpoint literal (g : list ascii) (s : mstate) : option mstate :=
  match g with
  | [] => Some s
  | c :: g' =>
      match step s with
      | Some (x, s') => if Ascii.eqb x c then literal g' s' else None
      | None => None
      end
  end.

(** The matcher, in continuation-passing style: [m r s k] tries the ways
    [r] matches at [s] in the order of preference of a backtracking
    engine and returns the first one the continuation accepts.  A
    repetition iterates only while the body consumes input, so the length
    of the remaining subject bounds it. *)
Fixpoint m (r : regex) (s : mstate) (k : mstate -> option mstate) {struct r}
  : option mstate :=
  match r with
  | Empty => k s
  | Lit c => one (Ascii.eqb c) s k
  | Dot dotall => one (fun x => dotall || negb (Ascii.eqb x LF)) s k
  | Class negated cs => one (fun x => xorb negated (existsb (Ascii.eqb x) cs)) s k
  | Space => one isspace s k
  | Bol multiline => if at_bol multiline s then k s else None
  | Cat r1 r2 => m r1 s (fun s' => m r2 s' k)
  | Alt r1 r2 =>
      match m r1 s k with
      | Some e => Some e
      | None => m r2 s k
      end
  | Star greedy r' =>
      (fix loop (fuel : nat) (s : mstate) {struct fuel} : option mstate :=
         match fuel with
         | 0 => k s
         | S fuel' =>
             let again (_ : unit) :=
               m r' s (fun s' =>
                 if (length (rest s') <? length (rest s))%nat
                 then loop fuel' s' else None) in
             if greedy
             then match again () with Some e => Some e | None => k s end
             else match k s with Some e => Some e | None => again () end
         end) (length (rest s)) s
  | Group n r' => m r' s (fun s' => k (set_group n (consumed s s') s'))
  | Backref n =>
      match get_group n (groups s) with
      | Some g => match literal g s with Some s' => k s' | None => None end
      | None => None
      end
  end.

(** A match of [r] starting exactly at the position [(p, cs)]. *)
Definition re_match (r : regex) (p : option ascii) (cs : list ascii) : option mstate :=
  m r {| prev := p; rest := cs; groups := [] |} Some.

(** Replacement templates: literal text and [\n] group references. *)
Inductive titem : Type := TLit (cs : list ascii) | TGroup (n : nat).

Definition expand (t : list titem) (s : mstate) : list ascii :=
  concat (map (fun i => match i with
                        | TLit cs => cs
                        | TGroup n => default [] (get_group n (groups s))
                        end) t).

(** [re.sub]: leftmost matches, left to right, not overlapping; the text
    between them is copied.  After an empty match the scan moves on by one
    character. *)
Fixpoint sub_loop (fuel : nat) (r : regex) (t : list titem)
    (p : option ascii) (cs : list ascii) : list ascii :=
  match fuel with
  | 0 => cs
  | S fuel' =>
      let skip :=
        match cs with
        | [] => []
        | c :: cs' => c :: sub_loop fuel' r t (Some c) cs'
        end in
      match re_match r p cs with
      | None => skip
      | Some e =>
          if (length (rest e) <? length cs)%nat
          then expand t e ++ sub_loop fuel' r t (prev e) (rest e)
          else expand t e ++ skip
      end
  end.

Definition sub (r : regex) (t : list titem) (cs : list ascii) : list ascii :=
  sub_loop (S (length cs)) r t None cs.

End Re.

(** ** str methods used by the normalizer *)

Module Str.

Import Re.

Fixpoint lstrip (cs : list ascii) : list ascii :=
  match cs with
  | [] => []
  | c :: cs' => if isspace c then lstrip cs' else cs
  end.

Fixpoint rstrip (cs : list ascii) : list ascii :=
  match cs with
  | [] => []
  | c :: cs' =>
      match rstrip cs' with
      | [] => if isspace c then [] else [c]
      | r => c :: r
      end
  end.

(** [s.strip()] *)
Definition strip (cs : list ascii) : list ascii := rstrip (lstrip cs).

(** [s.split("\n")]: never empty, [""] splits into [[""]]. *)
Fixpoint split_lines (cs : list ascii) : list (list ascii) :=
  match cs with
  | [] => [[]]
  | c :: cs' =>
      if Ascii.eqb c LF then [] :: split_lines cs'
      else match split_lines cs' with
           | [] => [[c]]
           | l :: ls => (c :: l) :: ls
           end
  end.

(** [sep.join(parts)] *)
Fixpoint join (sep : list ascii) (parts : list (list ascii)) : list ascii :=
  match parts with
  | [] => []
  | [x] => x
  | x :: xs => x ++ sep ++ join sep xs
  end.

(** Truthiness of a [str]. *)
Definition nonempty (cs : list ascii) : bool :=
  match cs with [] => false | _ => true end.

End Str.

(** ** crawler.py: the two-stage normalizer *)

Module Normalizer.

Import Re Str.

(** The rich-text libraries are outside the repository.  All that
    [markdown_to_text] needs of them is the sequence of strings of
    [BeautifulSoup(markdown.markdown(md, extensions=['fenced_code']),
    "html.parser")], in document order: [get_text(separator)] joins
    exactly these. *)
Record MarkdownLib : Type := {
  soup_strings : string -> list string
}.

Definition get_text (L : MarkdownLib) (separator : list ascii) (md : string)
  : list ascii :=
  join separator (list_ascii_of_string <$> soup_strings L md).

(** The cleanup of [markdown_to_text]:
    ["\n".join([line.strip() for line in text.split("\n") if line.strip()])] *)
Definition clean_lines (text : list ascii) : list ascii :=
  join [LF] (strip <$> filter (fun line => nonempty (strip line) = true)
                              (split_lines text)).

Definition markdown_to_text (L : MarkdownLib) (markdown_str : string) : string :=
  let text := get_text L [LF] markdown_str in
  let cleaned_text := clean_lines text in
  string_of_list_ascii cleaned_text.

(** [#+\s*] *)
Definition re_heading : regex :=
  Cat (Plus (Lit "#")) (Star true Space).

(** [\[([^\]]+)\]\([^\)]+\)] *)
Definition re_link : regex :=
  Cat (Lit "[") (Cat (Group 1 (Plus (Class true ["]"%char])))
    (Cat (Lit "]") (Cat (Lit "(") (Cat (Plus (Class true [")"%char])) (Lit ")"))))).

(** [(\*\*|__)(.*?)\1] *)
Definition re_strong : regex :=
  Cat (Group 1 (Alt (Cat (Lit "*") (Lit "*")) (Cat (Lit "_") (Lit "_"))))
    (Cat (Group 2 (Star false (Dot false))) (Backref 1)).

(** [(\*|_)(.*?)\1] *)
Definition re_em : regex :=
  Cat (Group 1 (Alt (Lit "*") (Lit "_")))
    (Cat (Group 2 (Star false (Dot false))) (Backref 1)).

(** [^[\*\-\+]\s*] with MULTILINE *)
Definition re_list : regex :=
  Cat (Bol true)
    (Cat (Class false ["*"%char; "-"%char; "+"%char]) (Star true Space)).

(** [`{3}.*?`{3}] with DOTALL *)
Definition re_fence : regex :=
  Cat (Rep3 (Lit "`")) (Cat (Star false (Dot true)) (Rep3 (Lit "`"))).

(** [`(.*?)`] *)
Definition re_code : regex :=
  Cat (Lit "`") (Cat (Group 1 (Star false (Dot false))) (Lit "`")).

(** [^>\s*] with MULTILINE *)
Definition re_quote : regex :=
  Cat (Bol true) (Cat (Lit ">") (Star true Space)).

Definition regex_stage (cs : list ascii) : list ascii :=
  let text := sub re_heading [] cs in
  let text := sub re_link [TGroup 1] text in
  let text := sub re_strong [TGroup 2] text in
  let text := sub re_em [TGroup 2] text in
  let text := sub re_list [] text in
  let text := sub re_fence [] text in
  let text := sub re_code [TGroup 1] text in
  let text := sub re_quote [] text in
  strip text.

Definition markdown_to_text_regex (markdown_str : string) : string :=
  string_of_list_ascii (regex_stage (list_ascii_of_string markdown_str)).

(** The pipeline of [crawl_urls]:
    [markdown_to_text_regex(markdown_to_text(content))]. *)
Definition normalize (L : MarkdownLib) (markdown_str : string) : string :=
  markdown_to_text_regex (markdown_to_text L markdown_str).

(** Text on which the regex stage finds nothing to rewrite: none of the
    characters [#], [[], [*], [_] or a backquote anywhere, and no [-],
    [+] or [>] at the start of a line. *)
Definition markup_char (c : ascii) : bool :=
  existsb (Ascii.eqb c) ["#"; "["; "*"; "_"; "`"]%char.

Definition line_marker (c : ascii) : bool :=
  existsb (Ascii.eqb c) ["-"; "+"; ">"]%char.

Fixpoint plain_from (p : option ascii) (cs : list ascii) : bool :=
  match cs with
  | [] => true
  | c :: cs' =>
      negb (markup_char c)
      && negb (at_bol true {| prev := p; rest := cs; groups := [] |}
               && line_marker c)
      && plain_from (Some c) cs'
  end.

Definition plain (s : string) : bool :=
  plain_from None (list_ascii_of_string s).

End Normalizer.

(** ** crawler.py: [WebCrawler.crawl_urls] *)

Module Crawler.

Import AntiCrawl Normalizer.

(** [{"content": ..., "reference": ...}] *)
Record result_item : Type := {
  content : string;
  reference : string
}.

(** What the loops over the engine's results tell apart in a result
    object: [None]; no attribute [success]; [success] true, with
    [markdown.fit_markdown] present or not; [success] false. *)
Inductive crawl_result : Type :=
| ResultNone
| ResultNoSuccessAttr
| ResultSuccess (fit_markdown : option string)
| ResultFailure.

(** [{"url": ..., "content": ..., "reference": ...}] *)
Record cache_item : Type := {
  item_url : string;
  item_content : string;
  item_reference : string
}.

(** The cache manager as [crawl_urls] sees it: the availability probe
    and the mapping that [get_batch] returns.  The probe is taken to give
    the same answer before the cache check and before the write-back. *)
Record CacheManager : Type := {
  cache_is_available : bool;
  get_batch : list string -> string -> gmap string result_item
}.

(** Calls to the collaborators, in the order they are made. *)
Inductive event : Type :=
| EvGetBatch (urls : list string) (instruction : string)
| EvFetchWithReader (url : string)
| EvApplyDelay
| EvArunMany (urls : list string)
| EvSetBatch (items : list cache_item) (instruction : string).

(** The response dict, in insertion order. *)
Inductive value : Type :=
| VResults (rs : list result_item)
| VInt (n : nat)
| VUrls (us : list string).

Definition response : Type := list (string * value).

Fixpoint get (key : string) (d : response) : option value :=
  match d with
  | [] => None
  | (k, v) :: d' => if String.eqb k key then Some v else get key d'
  end.

Definition keys (d : response) : list string := fst <$> d.

(** The crawler's surroundings: configuration constants, the cache
    manager, and the two fetch backends, each a transition on the state
    [W] of the outside world. *)
Record Env (W : Type) : Type := {
  READER_ENABLED : bool;
  ANTI_CRAWL_ENABLED : bool;
  anti_crawl_config : AntiCrawlConfig;
  cache_manager : option CacheManager;
  fetch_with_reader : string -> W -> option result_item * W;
  arun_many : list string -> W -> list crawl_result * W;
  markdown_lib : MarkdownLib
}.
Arguments READER_ENABLED {W} _.
Arguments ANTI_CRAWL_ENABLED {W} _.
Arguments anti_crawl_config {W} _.
Arguments cache_manager {W} _.
Arguments fetch_with_reader {W} _ _ _.
Arguments arun_many {W} _ _ _.
Arguments markdown_lib {W} _.

(** *** The monad of [crawl_urls]: world state, call log, exceptions

    A computation takes the state of the world and returns its result or
    the exception it raised, the new state of the world, and the log of
    the calls it made.  An exception does not undo the calls made before
    it. *)

Definition M (W A : Type) : Type := W -> res A * W * list event.

Definition ret {W A} (a : A) : M W A := fun w => (Ok a, w, []).

Definition raise {W A} (e : exn) : M W A := fun w => (Raise e, w, []).

Definition bind {W A B} (c : M W A) (f : A -> M W B) : M W B :=
  fun w =>
    match c w with
    | (Ok a, w', log) =>
        let '(r, w'', log') := f a w' in (r, w'', log ++ log')
    | (Raise e, w', log) => (Raise e, w', log)
    end.

Definition emit {W} (e : event) : M W unit := fun w => (Ok tt, w, [e]).

Definition call {W A} (f : W -> A * W) : M W A :=
  fun w => let '(a, w') := f w in (Ok a, w', []).

Definition lift {W A} (r : res A) : M W A := fun w => (r, w, []).

Definition try_except {W A} (c : M W A) (h : exn -> M W A) : M W A :=
  fun w =>
    match c w with
    | (Ok a, w', log) => (Ok a, w', log)
    | (Raise e, w', log) =>
        let '(r, w'', log') := h e w' in (r, w'', log ++ log')
    end.

Notation "'let*' p ':=' c 'in' k" := (bind c (fun p => k))
  (at level 10, p pattern, c at level 100, k at level 200).
Notation "c ;;; k" := (bind c (fun _ => k))
  (at level 100, right associativity).

Definition cache_available {W} (E : Env W) : bool :=
  match cache_manager E with
  | Some cm => cache_is_available cm
  | None => false
  end.

(** *** Cache check *)

(** The loop over [urls] that fills [cached_results] and
    [urls_to_process]. *)
Fixpoint partition_cached (cache_hits : gmap string result_item)
    (urls : list string) (cached_results : list result_item)
    (urls_to_process : list string) : list result_item * list string :=
  match urls with
  | [] => (cached_results, urls_to_process)
  | url :: urls' =>
      match cache_hits !! url with
      | Some cached_data =>
          partition_cached cache_hits urls'
            (cached_results ++ [{| content := content cached_data;
                                   reference := reference cached_data |}])
            urls_to_process
      | None =>
          partition_cached cache_hits urls' cached_results
            (urls_to_process ++ [url])
      end
  end.

Definition cache_check {W} (E : Env W) (urls : list string)
    (instruction : string) : M W (list result_item * list string) :=
  match cache_manager E with
  | Some cm =>
      if cache_is_available cm
      then emit (EvGetBatch urls instruction) ;;;
           ret (partition_cached (get_batch cm urls instruction) urls [] [])
      else ret ([], urls)
  | None => ret ([], urls)
  end.

(** The mapping the cache check works with (empty when there is no
    cache to ask), and the hits and misses it leaves. *)
Definition cache_hits_map {W} (E : Env W) (urls : list string)
    (instruction : string) : gmap string result_item :=
  match cache_manager E with
  | Some cm =>
      if cache_is_available cm then get_batch cm urls instruction else ∅
  | None => ∅
  end.

Definition cache_partition {W} (E : Env W) (urls : list string)
    (instruction : string) : list result_item * list string :=
  match cache_manager E with
  | Some cm =>
      if cache_is_available cm
      then partition_cached (get_batch cm urls instruction) urls [] []
      else ([], urls)
  | None => ([], urls)
  end.

(** *** Reader path *)

(** [asyncio.gather] over one [fetch_with_reader] per URL; the results
    come back in the order of the URLs. *)
Fixpoint gather {W} (E : Env W) (urls : list string)
  : M W (list (option result_item)) :=
  match urls with
  | [] => ret []
  | url :: urls' =>
      emit (EvFetchWithReader url) ;;;
      let* result := call (fetch_with_reader E url) in
      let* results := gather E urls' in
      ret (result :: results)
  end.

(** [for result in reader_results: if result: all_results.append(result)] *)
Definition reader_path {W} (E : Env W) (urls_to_process : list string)
  : M W (list result_item * list string) :=
  let* reader_results := gather E urls_to_process in
  ret (omap id reader_results, []).

(** *** Crawl4AI path *)

(** The loop [for i, result in enumerate(results)], which the first
    attempt and the retry share up to the name of the list that collects
    the rejected URLs ([retry_urls], then [failed_urls]).  Every branch
    reads [urls[i]]; past the end of [urls] that raises, in the handler
    of the loop body as well. *)
Fixpoint process_results (urls : list string) (i : nat)
    (results : list crawl_result) (all_results : list result_item)
    (rejected : list string) : res (list result_item * list string) :=
  match results with
  | [] => Ok (all_results, rejected)
  | result :: results' =>
      match urls !! i with
      | None => Raise IndexError
      | Some url =>
          match result with
          | ResultNone =>
              process_results urls (S i) results' all_results (rejected ++ [url])
          | ResultNoSuccessAttr =>
              process_results urls (S i) results' all_results (rejected ++ [url])
          | ResultSuccess None =>
              process_results urls (S i) results' all_results (rejected ++ [url])
          | ResultSuccess (Some fit_markdown) =>
              process_results urls (S i) results'
                (all_results ++ [{| content := fit_markdown; reference := url |}])
                rejected
          | ResultFailure =>
              process_results urls (S i) results' all_results (rejected ++ [url])
          end
      end
  end.

Definition crawl4ai_path {W} (E : Env W) (urls_to_crawl : list string)
  : M W (list result_item * list string) :=
  (if ANTI_CRAWL_ENABLED E && enable_request_delay (anti_crawl_config E)
   then emit EvApplyDelay else ret tt) ;;;
  emit (EvArunMany urls_to_crawl) ;;;
  let* results := call (arun_many E urls_to_crawl) in
  let* (all_results, retry_urls) := lift (process_results urls_to_crawl 0 results [] []) in
  match retry_urls with
  | [] => ret (all_results, [])
  | _ =>
      emit (EvArunMany retry_urls) ;;;
      let* retry_results := call (arun_many E retry_urls) in
      lift (process_results retry_urls 0 retry_results all_results [])
  end.

(** Backend dispatch: fetched results and the URLs the retry gave up. *)
Definition dispatch {W} (E : Env W) (urls_to_process : list string)
  : M W (list result_item * list string) :=
  if READER_ENABLED E
  then reader_path E urls_to_process
  else crawl4ai_path E urls_to_process.

(** *** Consolidation, normalization, write-back, response *)

Definition crawled_urls (all_results : list result_item) : gset string :=
  list_to_set (reference <$> all_results).

(** [failed_urls.extend([url for url in urls_to_process
                          if url not in crawled_urls])] *)
Definition consolidate (all_results : list result_item)
    (urls_to_process failed_urls : list string) : list string :=
  failed_urls ++ filter (fun url => url ∉ crawled_urls all_results) urls_to_process.

Definition process_result {W} (E : Env W) (result : result_item) : result_item :=
  {| content := normalize (markdown_lib E) (content result);
     reference := reference result |}.

Definition to_cache_item (result : result_item) : cache_item :=
  {| item_url := reference result;
     item_content := content result;
     item_reference := reference result |}.

Definition crawl_urls_body {W} (E : Env W) (urls : list string)
    (instruction : string) : M W response :=
  let* (cached_results, urls_to_process) := cache_check E urls instruction in
  match urls_to_process with
  | [] =>
      ret [("results", VResults cached_results);
           ("success_count", VInt (length cached_results));
           ("failed_urls", VUrls []);
           ("cache_hits", VInt (length cached_results))]
  | _ =>
      let* (all_results, failed_urls) := dispatch E urls_to_process in
      let failed_urls := consolidate all_results urls_to_process failed_urls in
      match all_results with
      | [] => raise AllCrawlsFailed
      | _ =>
          let processed_results := process_result E <$> all_results in
          (if cache_available E && bool_decide (processed_results ≠ [])
           then emit (EvSetBatch (to_cache_item <$> processed_results) instruction)
           else ret tt) ;;;
          let all_processed_results := cached_results ++ processed_results in
          ret [("results", VResults all_processed_results);
               ("success_count", VInt (length all_processed_results));
               ("failed_urls", VUrls failed_urls);
               ("cache_hits", VInt (length cached_results));
               ("newly_crawled", VInt (length processed_results))]
      end
  end.

(** [crawl_urls]: the body under [except Exception as e: raise
    HTTPException(status_code=500, detail=str(e))].  The crawler is taken
    to be initialized. *)
Definition crawl_urls {W} (E : Env W) (urls : list string)
    (instruction : string) : M W response :=
  try_except (crawl_urls_body E urls instruction) (fun e => raise (HTTP500 e)).

(** What a call returns or raises, and the log of its calls. *)
Definition outcome {W A} (c : M W A) (w : W) : res A := (c w).1.1.

Definition trace {W A} (c : M W A) (w : W) : list event := (c w).2.

(** What the delay step of the Crawl4AI path logs. *)
Definition delay_log {W} (E : Env W) : list event :=
  if ANTI_CRAWL_ENABLED E && enable_request_delay (anti_crawl_config E)
  then [EvApplyDelay] else [].

(** What the cache check and the write-back log. *)
Definition get_log {W} (E : Env W) (urls : list string) (instruction : string)
  : list event :=
  if cache_available E then [EvGetBatch urls instruction] else [].

Definition set_log {W} (E : Env W) (processed_results : list result_item)
    (instruction : string) : list event :=
  if cache_available E
  then [EvSetBatch (to_cache_item <$> processed_results) instruction]
  else [].

(** The reader answers for the URL it was asked: the reference of what
    it returns is that URL. *)
Definition reader_faithful {W} (E : Env W) : Prop :=
  forall url w0 x w1,
    fetch_with_reader E url w0 = (Some x, w1) -> reference x = url.

(** The backend calls of a log. *)
Definition is_backend_call (e : event) : bool :=
  match e with
  | EvFetchWithReader _ | EvArunMany _ => true
  | _ => false
  end.

Definition backend_calls (tr : list event) : list event :=
  filter (fun e => is_backend_call e = true) tr.

(** *** Reading a response *)

Definition get_results (d : response) : option (list result_item) :=
  match get "results" d with Some (VResults rs) => Some rs | _ => None end.

Definition get_int (key : string) (d : response) : option nat :=
  match get key d with Some (VInt n) => Some n | _ => None end.

Definition get_failed_urls (d : response) : option (list string) :=
  match get "failed_urls" d with Some (VUrls us) => Some us | _ => None end.

(** The engine accepts a result: [success] and the content field present. *)
Definition accepted (url : string) (r : crawl_result) : option result_item :=
  match r with
  | ResultSuccess (Some fit_markdown) =>
      Some {| content := fit_markdown; reference := url |}
  | _ => None
  end.

Definition accepted_of (urls : list string) (results : list crawl_result)
  : list result_item :=
  omap (fun '(url, r) => accepted url r) (zip urls results).

Definition rejected_of (urls : list string) (results : list crawl_result)
  : list string :=
  omap (fun '(url, r) => match accepted url r with
                         | Some _ => None
                         | None => Some url
                         end) (zip urls results).

End Crawler.

(** ** Concrete surroundings for the examples *)

Module Examples.

Import AntiCrawl Normalizer Crawler.

Definition nl : string := String Re.LF "".

Definition url_a : string := "https://a.example".
Definition url_b : string := "https://b.example".

Definition doc_a : string := "# Hi" +:+ nl +:+ "**bold** [link](http://x)".
Definition doc_b : string := "- item".

(** The strings that Python-Markdown (with [fenced_code]) and
    BeautifulSoup's [html.parser] yield for the documents used below.
    The HTML is, in this order: an [h1] with Hi, a newline, and a [p]
    with a [strong] bold, a space and an [a] link; a one-item [ul], with
    a newline on either side of the [li]; a [p] holding the text as it
    is (a list marker needs a space after it); again a one-item [ul];
    a plain [p]; nothing at all. *)
Definition python_markdown_table : list (string * list string) := [
  (doc_a, ["Hi"; nl; "bold"; " "; "link"]);
  (doc_b, [nl; "item"; nl]);
  ("-- a", ["-- a"]);
  ("- a", [nl; "a"; nl]);
  ("item", ["item"]);
  ("", [])
].

Fixpoint table_lookup (md : string) (t : list (string * list string))
  : option (list string) :=
  match t with
  | [] => None
  | (k, v) :: t' => if String.eqb k md then Some v else table_lookup md t'
  end.

(** Documents outside the table are not modelled: no strings. *)
Definition table_lib : MarkdownLib :=
  {| soup_strings := fun md => default [] (table_lookup md python_markdown_table) |}.

(** The policy with the defaults of [AntiCrawlConfig.__init__]. *)
Definition default_config : AntiCrawlConfig :=
  AntiCrawlConfig_init false true true true true "random" None false None.

(** An engine whose result for a URL depends on the URL and on how many
    batches it has served; a reader that depends on the URL only. *)
Definition engine_of (f : nat -> string -> crawl_result)
  : list string -> nat -> list crawl_result * nat :=
  fun urls n => (f n <$> urls, S n).

Definition reader_of (f : string -> option result_item)
  : string -> nat -> option result_item * nat :=
  fun url n => (f url, n).

Definition cache_of (hits : gmap string result_item) : CacheManager :=
  {| cache_is_available := true; get_batch := fun _ _ => hits |}.

Definition env (reader : bool) (cm : option CacheManager)
    (f : string -> option result_item) (e : nat -> string -> crawl_result)
  : Env nat :=
  {| READER_ENABLED := reader;
     ANTI_CRAWL_ENABLED := true;
     anti_crawl_config := default_config;
     cache_manager := cm;
     fetch_with_reader := reader_of f;
     arun_many := engine_of e;
     markdown_lib := table_lib |}.

(** The end-to-end example of the specification: [a] succeeds at once,
    [b] fails on the first pass and succeeds on the second. *)
Definition spec_engine (n : nat) (url : string) : crawl_result :=
  if String.eqb url url_a then ResultSuccess (Some doc_a)
  else match n with
       | 0 => ResultFailure
       | _ => ResultSuccess (Some doc_b)
       end.

Definition spec_env (L : MarkdownLib) : Env nat :=
  {| READER_ENABLED := false;
     ANTI_CRAWL_ENABLED := true;
     anti_crawl_config := default_config;
     cache_manager := Some (cache_of ∅);
     fetch_with_reader := reader_of (fun _ => None);
     arun_many := engine_of spec_engine;
     markdown_lib := L |}.

(** An engine that fails every URL on every pass, one that accepts every
    URL with the document [doc_b], and one that reports success with
    empty content. *)
Definition failing_engine (n : nat) (url : string) : crawl_result := ResultFailure.

Definition item_engine (n : nat) (url : string) : crawl_result :=
  ResultSuccess (Some doc_b).

Definition empty_engine (n : nat) (url : string) : crawl_result :=
  ResultSuccess (Some "").

(** [a] fetched, [b] failing on both passes. *)
Definition half_engine (n : nat) (url : string) : crawl_result :=
  if String.eqb url url_a then ResultSuccess (Some doc_b) else ResultFailure.

(** A reader that fetches [a] and fails everything else. *)
Definition half_reader (url : string) : option result_item :=
  if String.eqb url url_a
  then Some {| content := doc_b; reference := url |}
  else None.

(** A cache that holds [a] only. *)
Definition cache_with_a : CacheManager :=
  cache_of {[ url_a := {| content := "cached"; reference := url_a |} ]}.

(** Browser headers on, random headers off. *)
Definition browser_only_config : AntiCrawlConfig :=
  AntiCrawlConfig_init false false true false true "random" None false None.

Definition proxy (host : string) : ProxyConfig :=
  {| url := host; proxy_type := HTTP; username := None; password := None |}.

Definition sequential_config (ps : list ProxyConfig) : AntiCrawlConfig :=
  AntiCrawlConfig_init true true true true true "sequential" None false (Some ps).

End Examples.

(** ** anti_crawl.py: the remaining operations of [ProxyPool] *)

Module ProxyOps.

Import AntiCrawl.

(** [add_proxy]: [self.proxies.append(proxy)]; the cursor is left alone. *)
Definition add_proxy (p : ProxyPool) (proxy : ProxyConfig) : ProxyPool :=
  {| proxies := proxies p ++ [proxy]; current_index := current_index p |}.

(** [add_proxies]: [self.proxies.extend(proxies)]. *)
Definition add_proxies (p : ProxyPool) (ps : list ProxyConfig) : ProxyPool :=
  {| proxies := proxies p ++ ps; current_index := current_index p |}.

Definition ProxyPool_get_all (p : ProxyPool) : list ProxyConfig := proxies p.

(** A call on a pool, and a run of calls with what the reads returned. *)
Inductive pool_op : Type :=
| OpAddProxy (proxy : ProxyConfig)
| OpAddProxies (ps : list ProxyConfig)
| OpGetNext
| OpGetRandom.

Definition run_op (o : pool_op) (p : ProxyPool) (g : Random.rng)
  : res (option ProxyConfig * ProxyPool * Random.rng) :=
  match o with
  | OpAddProxy proxy => Ok (None, add_proxy p proxy, g)
  | OpAddProxies ps => Ok (None, add_proxies p ps, g)
  | OpGetNext => res_bind (get_next p) (fun '(x, p') => Ok (x, p', g))
  | OpGetRandom => res_bind (ProxyPool_get_random p g) (fun '(x, g') => Ok (x, p, g'))
  end.

Fixpoint run_ops (os : list pool_op) (p : ProxyPool) (g : Random.rng)
  : res (list (option ProxyConfig) * ProxyPool * Random.rng) :=
  match os with
  | [] => Ok ([], p, g)
  | o :: os' =>
      res_bind (run_op o p g) (fun '(x, p', g') =>
        res_bind (run_ops os' p' g') (fun '(xs, p'', g'') =>
          Ok (x :: xs, p'', g'')))
  end.

(** The cursor points into the pool, or the pool is empty and the cursor
    is where the constructor put it. *)
Definition cursor_ok (p : ProxyPool) : Prop :=
  current_index p < length (proxies p) \/
  (proxies p = [] /\ current_index p = 0).

(** [to_dict]: the two counts it reports. *)
Definition proxy_count (c : AntiCrawlConfig) : nat :=
  length (proxies (proxy_pool c)).

Definition user_agent_count (c : AntiCrawlConfig) : nat :=
  length (pool (user_agent_pool c)).

End ProxyOps.

(** ** str methods used by the configuration parser *)

Module PyStr.

Import Re Str.

(** [cs.startswith(sep)] *)
Fixpoint starts_with (sep cs : list ascii) : bool :=
  match sep, cs with
  | [], _ => true
  | _ :: _, [] => false
  | a :: sep', c :: cs' => Ascii.eqb a c && starts_with sep' cs'
  end.

(** [s.split(sep)] for a non-empty separator: the pieces between the
    occurrences of [sep], found from left to right without overlap.
    [skip] counts the characters of a separator still to pass over. *)
Fixpoint split_go (sep : list ascii) (skip : nat) (cs : list ascii)
  : list (list ascii) :=
  match cs with
  | [] => [[]]
  | c :: cs' =>
      match skip with
      | S k => split_go sep k cs'
      | 0 =>
          if starts_with sep cs
          then [] :: split_go sep (length sep - 1) cs'
          else match split_go sep 0 cs' with
               | [] => [[c]]
               | piece :: pieces => (c :: piece) :: pieces
               end
      end
  end.

Definition split (sep cs : list ascii) : list (list ascii) := split_go sep 0 cs.

(** [c in s] for a single character. *)
Definition contains (c : ascii) (cs : list ascii) : bool :=
  existsb (Ascii.eqb c) cs.

(** [sep] occurs nowhere in [cs]. *)
Fixpoint occurs_not (sep cs : list ascii) : bool :=
  match cs with
  | [] => negb (starts_with sep [])
  | _ :: cs' => negb (starts_with sep cs) && occurs_not sep cs'
  end.

End PyStr.

(** ** crawler.py: [_create_default_anti_crawl_config] and [initialize] *)

Module Setup.

Import AntiCrawl PyStr.

(** The constants of config.py that the crawler reads (the delay bounds
    are floats and are left out, as in [AntiCrawlConfig]). *)
Record Settings : Type := {
  ANTI_CRAWL_ENABLED : bool;
  ENABLE_PROXY_ROTATION : bool;
  ENABLE_USER_AGENT_ROTATION : bool;
  ENABLE_REQUEST_DELAY : bool;
  ENABLE_RANDOM_HEADERS : bool;
  ENABLE_BROWSER_HEADERS : bool;
  PROXY_ROTATION_MODE : string;
  USE_MOBILE_AGENTS : bool;
  PROXY_LIST : string;
  CUSTOM_USER_AGENTS : string
}.

(** [ProxyType(value)]: the member with that value; none raises ValueError. *)
Definition ProxyType_of_value (v : list ascii) : option ProxyType :=
  if decide (v = list_ascii_of_string "http") then Some HTTP
  else if decide (v = list_ascii_of_string "https") then Some HTTPS
  else if decide (v = list_ascii_of_string "socks5") then Some SOCKS5
  else None.

(** What the loop body does with one non-empty entry: it appends a proxy,
    or appends nothing because the entry has the wrong shape, or appends
    nothing because [ProxyType(protocol)] raised and the handler logged a
    warning. *)
Inductive parsed : Type :=
| Appended (proxy : ProxyConfig)
| Ignored
| Warned.

Definition make_proxy (protocol host : list ascii)
    (auth : option (list ascii * list ascii)) : parsed :=
  match ProxyType_of_value protocol with
  | None => Warned
  | Some t =>
      Appended {| url := string_of_list_ascii host;
                  proxy_type := t;
                  username := (fun a => string_of_list_ascii a.1) <$> auth;
                  password := (fun a => string_of_list_ascii a.2) <$> auth |}
  end.

Definition parse_proxy (proxy_str : list ascii) : parsed :=
  if contains "@" proxy_str
  then match split (list_ascii_of_string "://") proxy_str with
       | [protocol; rest] =>
           match split (list_ascii_of_string "@") rest with
           | [auth; host] =>
               match split (list_ascii_of_string ":") auth with
               | [user; pass] => make_proxy protocol host (Some (user, pass))
               | _ => Ignored
               end
           | _ => Ignored
           end
       | _ => Ignored
       end
  else match split (list_ascii_of_string "://") proxy_str with
       | [protocol; host] => make_proxy protocol host None
       | _ => Ignored
       end.

(** The loop over [PROXY_LIST.split(",")]: entries are stripped, empty ones
    passed over. *)
Definition parse_entry (entry : list ascii) : option parsed :=
  let proxy_str := Str.strip entry in
  match proxy_str with
  | [] => None
  | _ => Some (parse_proxy proxy_str)
  end.

Definition parse_entries (proxy_list : list ascii) : list parsed :=
  match proxy_list with
  | [] => []
  | _ => omap parse_entry (split (list_ascii_of_string ",") proxy_list)
  end.

Definition appended (ps : list parsed) : list ProxyConfig :=
  omap (fun p => match p with Appended x => Some x | _ => None end) ps.

Definition is_warned (p : parsed) : bool :=
  match p with Warned => true | _ => false end.

Definition warnings (ps : list parsed) : nat :=
  length (filter (fun p => is_warned p = true) ps).

Definition parse_proxy_list (proxy_list : string) : list ProxyConfig :=
  appended (parse_entries (list_ascii_of_string proxy_list)).

(** [[ua.strip() for ua in CUSTOM_USER_AGENTS.split(",") if ua.strip()]] *)
Definition parse_custom_agents (custom : string) : list string :=
  match list_ascii_of_string custom with
  | [] => []
  | cs =>
      (fun ua => string_of_list_ascii (Str.strip ua)) <$>
        filter (fun ua => Str.nonempty (Str.strip ua) = true)
               (split (list_ascii_of_string ",") cs)
  end.

Definition _create_default_anti_crawl_config (S : Settings) : AntiCrawlConfig :=
  if negb (ANTI_CRAWL_ENABLED S)
  then AntiCrawlConfig_init false false false false false "random" None false None
  else
    let proxies := parse_proxy_list (PROXY_LIST S) in
    let custom_agents := parse_custom_agents (CUSTOM_USER_AGENTS S) in
    AntiCrawlConfig_init
      (ENABLE_PROXY_ROTATION S) (ENABLE_USER_AGENT_ROTATION S)
      (ENABLE_REQUEST_DELAY S) (ENABLE_RANDOM_HEADERS S)
      (ENABLE_BROWSER_HEADERS S) (PROXY_ROTATION_MODE S)
      (Some custom_agents) (USE_MOBILE_AGENTS S) (Some proxies).

(** config.py, [get_config_info]: the proxy count it reports,
    [len(PROXY_LIST.split(",")) if PROXY_LIST else 0]. *)
Definition config_proxy_count (S : Settings) : nat :=
  match list_ascii_of_string (PROXY_LIST S) with
  | [] => 0
  | cs => length (split (list_ascii_of_string ",") cs)
  end.






(** config.py, [get_config_info]: the custom agent count it reports,
    [len(CUSTOM_USER_AGENTS.split(",")) if CUSTOM_USER_AGENTS else 0]. *)
Definition config_custom_user_agents_count (S : Settings) : nat :=
  match list_ascii_of_string (CUSTOM_USER_AGENTS S) with
  | [] => 0
  | cs => length (split (list_ascii_of_string ",") cs)
  end.

End Setup.

(** ** crawler.py: the cache calls of a log *)

Module CacheLog.

Import Crawler.
(** The calls to the cache manager in a log. *)
Definition is_cache_call (e : event) : bool :=
  match e with
  | EvGetBatch _ _ | EvSetBatch _ _ => true
  | _ => false
  end.

Definition cache_calls (tr : list event) : list event :=
  filter (fun e => is_cache_call e = true) tr.

End CacheLog.

(** ** More concrete surroundings *)

Module MoreExamples.

Import AntiCrawl Crawler Examples.

Definition three_proxies : list ProxyConfig :=
  [proxy "p0:1"; proxy "p1:1"; proxy "p2:1"].

(** A sequential policy that has handed out its first proxy. *)
Definition mid_cycle_config : AntiCrawlConfig :=
  set_proxy_pool (sequential_config three_proxies)
    {| proxies := three_proxies; current_index := 1 |}.

Definition random_config (ps : list ProxyConfig) : AntiCrawlConfig :=
  AntiCrawlConfig_init true true true true true "random" None false (Some ps).


(** What [crawl_urls] returns for [a] fetched and [b] failing both passes. *)
Definition half_response (failed : list string) : response :=
  [("results", VResults [{| content := "item"; reference := url_a |}]);
   ("success_count", VInt 1);
   ("failed_urls", VUrls failed);
   ("cache_hits", VInt 0);
   ("newly_crawled", VInt 1)].

(** The response to the end-to-end example of the specification. *)
Definition spec_response : response :=
  [("results", VResults [{| content := "Hi" +:+ nl +:+ "bold" +:+ nl +:+ "link";
                            reference := url_a |};
                         {| content := "item"; reference := url_b |}]);
   ("success_count", VInt 2);
   ("failed_urls", VUrls []);
   ("cache_hits", VInt 0);
   ("newly_crawled", VInt 2)].

End MoreExamples.

(** * Properties *)

Local Open Scope nat_scope.

Section RandomFacts.
Import Random.

Lemma choice_ok {A} (xs : list A) (g : rng) :
  xs ≠ [] → ∃ x g', choice xs g = Ok (x, g') ∧ x ∈ xs.
Proof.
  intros Hne. destruct xs as [|x0 xs]; [done|].
  unfold choice. destruct (next g) as [r g'] eqn:Hn.
  eexists _, _. split; [reflexivity|].
  apply list_elem_of_In, nth_In.
  apply Nat.mod_upper_bound. simpl. lia.
Qed.

Lemma choice_draw {A} (xs : list A) (i : nat) (x : A) (g : rng) :
  xs !! i = Some x → choice xs (i :: g) = Ok (x, g).
Proof.
  intros Hi. destruct xs as [|x0 xs]; [done|].
  unfold choice, next.
  assert (i < length (x0 :: xs)) as Hlt by (by eapply lookup_lt_Some).
  rewrite Nat.mod_small by done.
  do 2 f_equal. 
  apply (nth_lookup_Some _ _ x0) in Hi. by rewrite Hi.
Qed.
End RandomFacts.

Section AntiCrawlFacts.
Import Random AntiCrawl.

Lemma build_pool_prefix custom mobile :
  DESKTOP_USER_AGENTS `prefix_of` _build_pool custom mobile.
Proof.
  unfold _build_pool.
  destruct mobile, custom; try done.
  - by apply prefix_app_r.
  - rewrite <- (assoc_L app). by apply prefix_app_r.
  - by apply prefix_app_r.
Qed.

Lemma build_pool_head custom mobile :
  ∃ tl, _build_pool custom mobile =
    "Mozilla/5.0 (Windows NT 10.0; Win64; x64) AppleWebKit/537.36 (KHTML, like Gecko) Chrome/120.0.0.0 Safari/537.36" :: tl.
Proof.
  destruct (build_pool_prefix custom mobile) as [k ->].
  eexists. reflexivity.
Qed.

Lemma generate_headers_ok ua g :
  ∃ lang g1 ref g2,
    choice ACCEPT_LANGUAGES g = Ok (lang, g1) ∧ lang ∈ ACCEPT_LANGUAGES ∧
    choice REFERERS g1 = Ok (ref, g2) ∧ ref ∈ REFERERS ∧
    generate_headers ua true g = Ok ([
      ("User-Agent", ua);
      ("Accept", "text/html,application/xhtml+xml,application/xml;q=0.9,image/webp,*/*;q=0.8");
      ("Accept-Language", lang);
      ("Accept-Encoding", "gzip, deflate, br");
      ("DNT", "1");
      ("Connection", "keep-alive");
      ("Upgrade-Insecure-Requests", "1");
      ("Sec-Fetch-Dest", "document");
      ("Sec-Fetch-Mode", "navigate");
      ("Sec-Fetch-Site", "none");
      ("Cache-Control", "max-age=0");
      ("Referer", ref)], g2).
Proof.
  destruct (choice_ok ACCEPT_LANGUAGES g) as (lang & g1 & H1 & Hl); [done|].
  destruct (choice_ok REFERERS g1) as (ref & g2 & H2 & Hr); [done|].
  exists lang, g1, ref, g2. repeat split; try done.
  unfold generate_headers. rewrite H1. cbn [res_bind]. rewrite H2. reflexivity.
Qed.

Lemma get_headers_user_agent (c : AntiCrawlConfig) (g : rng) :
  pool (user_agent_pool c) ≠ [] →
  ∃ h g' ua,
    get_headers c g = Ok (h, g') ∧
    header "User-Agent" h = Some ua ∧
    ua ∈ pool (user_agent_pool c) ∧
    (enable_user_agent_rotation c = false →
     head (pool (user_agent_pool c)) = Some ua).
Proof.
  intros Hne. unfold get_headers.
  assert (∀ ua g1, ∃ h g',
    (if enable_random_headers c || enable_browser_headers c
     then generate_headers ua true g1
     else Ok ([("User-Agent", ua)], g1)) = Ok (h, g') ∧
    header "User-Agent" h = Some ua) as Hrest.
  { intros ua g1.
    destruct (enable_random_headers c || enable_browser_headers c).
    - destruct (generate_headers_ok ua g1)
        as (lang & g2 & ref & g3 & _ & _ & _ & _ & Hg).
      rewrite Hg. by eexists _, _.
    - by eexists _, _. }
  destruct (enable_user_agent_rotation c).
  - destruct (choice_ok (pool (user_agent_pool c)) g Hne) as (ua & g1 & H & Hin).
    unfold UserAgentPool_get_random. rewrite H. cbn [res_bind].
    destruct (Hrest ua g1) as (h & g' & -> & Hh).
    exists h, g', ua. by repeat split.
  - unfold first_agent, UserAgentPool_get_all.
    destruct (pool (user_agent_pool c)) as [|ua tl]; [done|]. cbn [res_bind].
    destruct (Hrest ua g) as (h & g' & -> & Hh).
    exists h, g', ua. repeat split; try done. by left.
Qed.

(** C9 (as amended).  With a non-empty agent pool, [get_headers] selects
    the agent by [random.choice] over the pool when agent rotation is on
    and takes the first pool entry otherwise.  It returns the single-entry
    mapping with only User-Agent exactly when both [enable_random_headers]
    and [enable_browser_headers] are off; when either is on it returns the
    fixed header set with an Accept-Language drawn by [random.choice] from
    the 3 locale strings and a Referer drawn from the 4 referrer URLs. *)
Theorem get_headers_by_flags (c : AntiCrawlConfig) (g : rng) :
  pool (user_agent_pool c) ≠ [] →
  ∃ ua g1,
    (if enable_user_agent_rotation c
     then choice (pool (user_agent_pool c)) g = Ok (ua, g1)
     else head (pool (user_agent_pool c)) = Some ua ∧ g1 = g) ∧
    ua ∈ pool (user_agent_pool c) ∧
    (enable_random_headers c = false → enable_browser_headers c = false →
     get_headers c g = Ok ([("User-Agent", ua)], g1)) ∧
    (enable_random_headers c = true ∨ enable_browser_headers c = true →
     ∃ lang g2 ref g3,
       choice ACCEPT_LANGUAGES g1 = Ok (lang, g2) ∧ lang ∈ ACCEPT_LANGUAGES ∧
       choice REFERERS g2 = Ok (ref, g3) ∧ ref ∈ REFERERS ∧
       length ACCEPT_LANGUAGES = 3 ∧ length REFERERS = 4 ∧
       get_headers c g = Ok ([
         ("User-Agent", ua);
         ("Accept", "text/html,application/xhtml+xml,application/xml;q=0.9,image/webp,*/*;q=0.8");
         ("Accept-Language", lang);
         ("Accept-Encoding", "gzip, deflate, br");
         ("DNT", "1");
         ("Connection", "keep-alive");
         ("Upgrade-Insecure-Requests", "1");
         ("Sec-Fetch-Dest", "document");
         ("Sec-Fetch-Mode", "navigate");
         ("Sec-Fetch-Site", "none");
         ("Cache-Control", "max-age=0");
         ("Referer", ref)], g3)).
Proof.
  intros Hne.
  assert (∃ ua g1,
    (if enable_user_agent_rotation c
     then choice (pool (user_agent_pool c)) g = Ok (ua, g1)
     else head (pool (user_agent_pool c)) = Some ua ∧ g1 = g) ∧
    ua ∈ pool (user_agent_pool c) ∧
    (if enable_user_agent_rotation c
     then UserAgentPool_get_random (user_agent_pool c) g
     else res_bind (first_agent (user_agent_pool c)) (fun ua => Ok (ua, g)))
    = Ok (ua, g1)) as (ua & g1 & Hsel & Hin & Hrun).
  { destruct (enable_user_agent_rotation c).
    - destruct (choice_ok (pool (user_agent_pool c)) g Hne) as (ua & g1 & H & Hin).
      by exists ua, g1.
    - unfold first_agent, UserAgentPool_get_all.
      destruct (pool (user_agent_pool c)) as [|ua tl]; [done|].
      exists ua, g. repeat split; try done. by left. }
  exists ua, g1. split; [done|]. split; [done|]. split.
  - intros Hr Hb. unfold get_headers. rewrite Hrun. cbn [res_bind].
    by rewrite Hr, Hb.
  - intros Hor.
    destruct (generate_headers_ok ua g1) as (lang & g2 & ref & g3 & H1 & Hl & H2 & Hr & Hg).
    exists lang, g2, ref, g3. repeat split; try done.
    unfold get_headers. rewrite Hrun. cbn [res_bind].
    assert (enable_random_headers c || enable_browser_headers c = true) as ->.
    { destruct Hor as [-> | ->]; [done|]. by rewrite orb_true_r. }
    exact Hg.
Qed.

(** The default policy with the draws 3, 1, 2. *)
Lemma get_headers_by_flags_witness :
  get_headers Examples.default_config [3; 1; 2]
  = Ok ([
         ("User-Agent", "Mozilla/5.0 (X11; Linux x86_64) AppleWebKit/537.36 (KHTML, like Gecko) Chrome/120.0.0.0 Safari/537.36");
         ("Accept", "text/html,application/xhtml+xml,application/xml;q=0.9,image/webp,*/*;q=0.8");
         ("Accept-Language", "zh-CN,zh;q=0.9");
         ("Accept-Encoding", "gzip, deflate, br");
         ("DNT", "1");
         ("Connection", "keep-alive");
         ("Upgrade-Insecure-Requests", "1");
         ("Sec-Fetch-Dest", "document");
         ("Sec-Fetch-Mode", "navigate");
         ("Sec-Fetch-Site", "none");
         ("Cache-Control", "max-age=0");
         ("Referer", "https://www.baidu.com/")], []).
Proof.
  destruct (get_headers_by_flags Examples.default_config [3; 1; 2])
    as (ua & g1 & Hsel & _ & _ & Hfull); [by vm_compute|].
  destruct Hfull as (lang & g2 & ref & g3 & H1 & _ & H2 & _ & _ & _ & Hg);
    [by left|].
  vm_compute in Hsel. injection Hsel as <- <-.
  vm_compute in H1. injection H1 as <- <-.
  vm_compute in H2. injection H2 as <- <-.
  exact Hg.
Defined.

(** C9, counterexample.  Random headers off, browser headers on: the full
    set of twelve headers comes back, not the User-Agent alone. *)
Lemma get_headers_browser_only :
  enable_random_headers Examples.browser_only_config = false ∧
  ∃ h g', get_headers Examples.browser_only_config [] = Ok (h, g') ∧
          length h = 12 ∧ header "Referer" h = Some "https://www.google.com/".
Proof. split; [done|]. eexists _, _. by vm_compute. Qed.

(** C10.  Whatever the flags, the custom agents and [use_mobile], the pool
    built by the constructor starts with the eight desktop agents, so it is
    never empty and [get_headers] returns headers whose User-Agent is a pool
    entry; with agent rotation off that User-Agent is the first desktop
    agent, custom agents or not. *)
Theorem user_agent_pool_never_empty
    (pr ur rd rh bh : bool) (mode : string) (custom : option (list string))
    (mobile : bool) (ps : option (list ProxyConfig)) (g : rng) :
  let c := AntiCrawlConfig_init pr ur rd rh bh mode custom mobile ps in
  let c0 := AntiCrawlConfig_init pr false rd rh bh mode custom mobile ps in
  length DESKTOP_USER_AGENTS = 8 ∧
  DESKTOP_USER_AGENTS `prefix_of` pool (user_agent_pool c) ∧
  pool (user_agent_pool c) ≠ [] ∧
  (∃ h g' ua, get_headers c g = Ok (h, g') ∧
              header "User-Agent" h = Some ua ∧ ua ∈ pool (user_agent_pool c)) ∧
  (∃ h g', get_headers c0 g = Ok (h, g') ∧
           header "User-Agent" h = head DESKTOP_USER_AGENTS ∧
           header "User-Agent" h = Some
             "Mozilla/5.0 (Windows NT 10.0; Win64; x64) AppleWebKit/537.36 (KHTML, like Gecko) Chrome/120.0.0.0 Safari/537.36").
Proof.
  intros c c0.
  assert (pool (user_agent_pool c) ≠ []) as Hne.
  { simpl. destruct (build_pool_head (default [] custom) mobile) as [tl ->]. done. }
  split; [done|]. split; [apply build_pool_prefix|]. split; [done|]. split.
  - destruct (get_headers_user_agent c g Hne) as (h & g' & ua & Hrun & Hh & Hin & _).
    by exists h, g', ua.
  - assert (pool (user_agent_pool c0) ≠ []) as Hne0 by exact Hne.
    destruct (get_headers_user_agent c0 g Hne0)
      as (h & g' & ua & Hrun & Hh & _ & Hhd).
    specialize (Hhd eq_refl). simpl in Hhd.
    destruct (build_pool_head (default [] custom) mobile) as [tl Htl].
    rewrite Htl in Hhd. injection Hhd as <-.
    by exists h, g'.
Qed.
End AntiCrawlFacts.

Section ProxyFacts.
Import Random AntiCrawl.

Lemma succ_div_mod (n k : nat) :
  0 < k →
  (n mod k + 1 < k ∧ S n / k = n / k ∧ S n mod k = n mod k + 1) ∨
  (n mod k + 1 = k ∧ S n / k = n / k + 1 ∧ S n mod k = 0).
Proof.
  intros Hk.
  pose proof (Nat.div_mod_eq n k) as Hn.
  pose proof (Nat.mod_upper_bound n k ltac:(lia)) as Hr.
  destruct (decide (n mod k + 1 < k)) as [Hlt|Hge].
  - left. split; [done|].
    assert (S n = k * (n / k) + (n mod k + 1)) as Heq by lia.
    split.
    + symmetry. by apply (Nat.div_unique _ _ _ (n mod k + 1)).
    + symmetry. by apply (Nat.mod_unique _ _ (n / k)).
  - right. split; [lia|].
    assert (S n = k * (n / k + 1) + 0) as Heq by lia.
    split.
    + symmetry. by apply (Nat.div_unique _ _ _ 0).
    + symmetry. by apply (Nat.mod_unique _ _ (n / k + 1)).
Qed.

(** How often the pool index [j] comes up among the call numbers below [n]. *)
Lemma rotation_count (k j n : nat) :
  0 < k → j < k →
  length (filter (λ i, i mod k = j) (seq 0 n))
  = n / k + (if decide (j < n mod k) then 1 else 0).
Proof.
  intros Hk Hj. induction n as [|n IH].
  - rewrite Nat.Div0.div_0_l, Nat.Div0.mod_0_l. cbn [seq]. rewrite filter_nil. destruct (decide (j < 0)); simpl; lia.
  - rewrite seq_S, filter_app, length_app, IH. simpl.
    destruct (succ_div_mod n k Hk) as [(H1 & -> & ->) | (H1 & -> & ->)].
    + rewrite filter_cons, filter_nil. repeat case_decide; simpl; lia.
    + rewrite filter_cons, filter_nil. repeat case_decide; simpl; lia.
Qed.

Lemma ceil_div (n k : nat) :
  0 < k → (n + k - 1) / k = n / k + (if decide (n mod k = 0) then 0 else 1).
Proof.
  intros Hk.
  pose proof (Nat.div_mod_eq n k) as Hn.
  pose proof (Nat.mod_upper_bound n k ltac:(lia)) as Hr.
  case_decide as H0.
  - symmetry. apply (Nat.div_unique _ _ _ (k - 1)); lia.
  - symmetry. apply (Nat.div_unique _ _ _ (n mod k - 1)); lia.
Qed.

Lemma get_proxy_sequential (c : AntiCrawlConfig) (g : rng) :
  enable_proxy_rotation c = true →
  proxy_rotation_mode c = "sequential" →
  current_index (proxy_pool c) < length (proxies (proxy_pool c)) →
  get_proxy c g =
    Ok (get_proxy_url <$> proxies (proxy_pool c) !! current_index (proxy_pool c),
        set_proxy_pool c
          {| proxies := proxies (proxy_pool c);
             current_index := (current_index (proxy_pool c) + 1)
                                mod length (proxies (proxy_pool c)) |},
        g).
Proof.
  intros Hen Hmode Hlt. unfold get_proxy, is_available.
  rewrite Hen, Hmode. rewrite bool_decide_eq_true_2 by lia. simpl.
  unfold get_next.
  destruct (lookup_lt_is_Some_2 _ _ Hlt) as [p Hp].
  destruct (proxies (proxy_pool c)) as [|p0 ps] eqn:Hps; [simpl in Hlt; lia|].
  rewrite Hp. reflexivity.
Qed.

Lemma get_proxy_times_sequential (n : nat) :
  ∀ (c : AntiCrawlConfig) (g : rng),
  enable_proxy_rotation c = true →
  proxy_rotation_mode c = "sequential" →
  current_index (proxy_pool c) < length (proxies (proxy_pool c)) →
  let ps := proxies (proxy_pool c) in
  let c0 := current_index (proxy_pool c) in
  get_proxy_times n c g =
    Ok ((λ i, get_proxy_url <$> ps !! ((c0 + i) mod length ps)) <$> seq 0 n,
        set_proxy_pool c
          {| proxies := ps; current_index := (c0 + n) mod length ps |},
        g).
Proof.
  induction n as [|n IH]; intros c g Hen Hmode Hlt ps c0.
  - simpl. rewrite Nat.add_0_r, Nat.mod_small by done.
    destruct c as [? ? ? ? ? ? ? [? ?]]; reflexivity.
  - cbn [get_proxy_times]. rewrite get_proxy_sequential by done.
    cbn [res_bind]. fold ps c0.
    rewrite IH; cbn; try done.
    + fold ps c0. rewrite Nat.add_0_r, (Nat.mod_small c0) by done.
      do 3 f_equal.
      * rewrite <- seq_shift, <- list_fmap_compose. f_equal.
        apply list_fmap_ext. intros _ i _. simpl.
        rewrite Nat.Div0.add_mod_idemp_l. do 3 f_equal. lia.
      * unfold set_proxy_pool. simpl. do 2 f_equal.
        rewrite Nat.Div0.add_mod_idemp_l. f_equal. lia.
    + apply Nat.mod_upper_bound. fold ps. unfold c0, ps in *. lia.
Qed.

(** C8.  A freshly constructed policy with proxy rotation on, mode
    sequential and a pool of [K >= 1] proxies: [N] calls of [get_proxy]
    succeed and return the pool entries in pool order, wrapping around
    (call [i] returns entry [i mod K]); after them the cursor is
    [N mod K], inside [[0, K)]; and each pool index is returned
    [N / K] times, plus one for the first [N mod K] indices, that is the
    floor or the ceiling of [N / K]. *)
Theorem sequential_rotation
    (ur rd rh bh : bool) (custom : option (list string)) (mobile : bool)
    (ps : list ProxyConfig) (g : rng) (N : nat) :
  let c := AntiCrawlConfig_init true ur rd rh bh "sequential" custom mobile (Some ps) in
  let K := length ps in
  (1 ≤ K)%nat →
  ∃ c',
    get_proxy_times N c g =
      Ok ((λ i, get_proxy_url <$> ps !! (i mod K)) <$> seq 0 N, c', g) ∧
    proxies (proxy_pool c') = ps ∧
    current_index (proxy_pool c') = N mod K ∧
    current_index (proxy_pool c') < K ∧
    ∀ j, j < K →
      let count := length (filter (λ i, i mod K = j) (seq 0 N)) in
      count = N / K + (if decide (j < N mod K) then 1 else 0) ∧
      (count = N / K ∨ count = (N + K - 1) / K).
Proof.
  intros c K HK.
  eexists. split.
  - apply (get_proxy_times_sequential N c g); [done|done|simpl; unfold K in HK; lia].
  - simpl. fold K. split; [done|]. split; [done|].
    split; [apply Nat.mod_upper_bound; lia|].
    intros j Hj.
    rewrite rotation_count by lia. split; [done|].
    rewrite ceil_div by lia.
    repeat case_decide; lia.
Qed.

(** Two proxies, five calls. *)
Lemma sequential_rotation_witness :
  ∃ c',
    get_proxy_times 5
      (Examples.sequential_config [Examples.proxy "p0:1"; Examples.proxy "p1:1"]) []
    = Ok ([Some "http://p0:1"; Some "http://p1:1"; Some "http://p0:1";
           Some "http://p1:1"; Some "http://p0:1"], c', []) ∧
    current_index (proxy_pool c') = 1.
Proof.
  destruct (sequential_rotation true true true true None false
              [Examples.proxy "p0:1"; Examples.proxy "p1:1"] [] 5)
    as (c' & Hrun & _ & Hidx & _); [simpl; lia|].
  exists c'. split; [exact Hrun | exact Hidx].
Defined.
End ProxyFacts.

Section StrFacts.
Import Re Str.

Lemma lstrip_head (cs : list ascii) :
  match lstrip cs with
  | [] => True
  | c :: _ => isspace c = false
  end.
Proof.
  induction cs as [|c cs IH]; [done|]. simpl.
  destruct (isspace c) eqn:Hc; [done|]. by rewrite Hc.
Qed.

Lemma lstrip_fixed (cs : list ascii) :
  match cs with [] => True | c :: _ => isspace c = false end →
  lstrip cs = cs.
Proof. destruct cs as [|c cs]; [done|]. simpl. by intros ->. Qed.

Lemma rstrip_head (c : ascii) (cs : list ascii) :
  isspace c = false → ∃ tl, rstrip (c :: cs) = c :: tl.
Proof.
  intros Hc. simpl. destruct (rstrip cs); [rewrite Hc|]; eauto.
Qed.

Lemma rstrip_idem (cs : list ascii) : rstrip (rstrip cs) = rstrip cs.
Proof.
  induction cs as [|c cs IH]; [done|]. simpl.
  destruct (rstrip cs) as [|r rs] eqn:Hr.
  - destruct (isspace c) eqn:Hc; [done|]. simpl. by rewrite Hc.
  - change (rstrip (c :: r :: rs)) with
      (match rstrip (r :: rs) with
       | [] => if isspace c then [] else [c]
       | r' => c :: r'
       end).
    by rewrite IH.
Qed.

Lemma strip_idem (cs : list ascii) : strip (strip cs) = strip cs.
Proof.
  unfold strip.
  assert (lstrip (rstrip (lstrip cs)) = rstrip (lstrip cs)) as ->.
  { apply lstrip_fixed. pose proof (lstrip_head cs) as Hh.
    destruct (lstrip cs) as [|c tl]; [done|].
    destruct (rstrip_head c tl Hh) as [tl' ->]. done. }
  apply rstrip_idem.
Qed.
End StrFacts.

Section ReFacts.
Import Re Str Normalizer.

Lemma plain_from_cons p c cs :
  plain_from p (c :: cs) = true →
  markup_char c = false ∧
  (at_bol true {| prev := p; rest := c :: cs; groups := [] |} = true →
   line_marker c = false) ∧
  plain_from (Some c) cs = true.
Proof.
  simpl. intros H.
  apply andb_true_iff in H as [H H3]. apply andb_true_iff in H as [H1 H2].
  apply negb_true_iff in H1, H2. split; [done|]. split; [|done].
  intros Hb. rewrite Hb in H2. done.
Qed.

Lemma sub_loop_plain (r : regex) (t : list titem) :
  (∀ p c cs, plain_from p (c :: cs) = true → re_match r p (c :: cs) = None) →
  (∀ p, re_match r p [] = None) →
  ∀ fuel p cs, plain_from p cs = true → sub_loop fuel r t p cs = cs.
Proof.
  intros Hcons Hnil. induction fuel as [|fuel IH]; intros p cs Hp; [done|].
  destruct cs as [|c cs]; simpl.
  - by rewrite Hnil.
  - rewrite (Hcons _ _ _ Hp). f_equal. apply IH.
    by apply plain_from_cons in Hp as (_ & _ & ?).
Qed.

Lemma markup_char_false c :
  markup_char c = false →
  Ascii.eqb c "#" = false ∧ Ascii.eqb c "[" = false ∧ Ascii.eqb c "*" = false
  ∧ Ascii.eqb c "_" = false ∧ Ascii.eqb c "`" = false.
Proof.
  unfold markup_char. simpl. intros H.
  repeat (apply orb_false_iff in H as [? H]). done.
Qed.

Lemma line_marker_false c :
  line_marker c = false →
  Ascii.eqb c "-" = false ∧ Ascii.eqb c "+" = false ∧ Ascii.eqb c ">" = false.
Proof.
  unfold line_marker. simpl. intros H.
  repeat (apply orb_false_iff in H as [? H]). done.
Qed.

Ltac head_fails :=
  intros p c cs Hp;
  apply plain_from_cons in Hp as (Hm & Hl & _);
  apply markup_char_false in Hm as (H1 & H2 & H3 & H4 & H5);
  unfold re_match; cbn -[at_bol length Ascii.eqb Nat.ltb];
  repeat match goal with
  | |- context [Ascii.eqb ?x c] => rewrite (Ascii.eqb_sym x c)
  end;
  rewrite ?H1, ?H2, ?H3, ?H4, ?H5; try reflexivity.

Lemma re_heading_plain p c cs :
  plain_from p (c :: cs) = true → re_match re_heading p (c :: cs) = None.
Proof. revert p c cs. head_fails. Qed.

Lemma re_link_plain p c cs :
  plain_from p (c :: cs) = true → re_match re_link p (c :: cs) = None.
Proof. revert p c cs. head_fails. Qed.

Lemma re_strong_plain p c cs :
  plain_from p (c :: cs) = true → re_match re_strong p (c :: cs) = None.
Proof. revert p c cs. head_fails. Qed.

Lemma re_em_plain p c cs :
  plain_from p (c :: cs) = true → re_match re_em p (c :: cs) = None.
Proof. revert p c cs. head_fails. Qed.

Lemma re_fence_plain p c cs :
  plain_from p (c :: cs) = true → re_match re_fence p (c :: cs) = None.
Proof. revert p c cs. head_fails. Qed.

Lemma re_code_plain p c cs :
  plain_from p (c :: cs) = true → re_match re_code p (c :: cs) = None.
Proof. revert p c cs. head_fails. Qed.

Ltac line_head_fails :=
  head_fails;
  match goal with
  | Hline : at_bol ?b ?s = true → _ |- _ =>
      destruct (at_bol b s); [|reflexivity];
      destruct (line_marker_false _ (Hline eq_refl)) as (H6 & H7 & H8);
      rewrite ?H6, ?H7, ?H8; reflexivity
  end.

Lemma re_list_plain p c cs :
  plain_from p (c :: cs) = true → re_match re_list p (c :: cs) = None.
Proof. revert p c cs. line_head_fails. Qed.

Lemma re_quote_plain p c cs :
  plain_from p (c :: cs) = true → re_match re_quote p (c :: cs) = None.
Proof. revert p c cs. line_head_fails. Qed.

Lemma re_list_nil p : re_match re_list p [] = None.
Proof. unfold re_match. cbn -[at_bol]. by destruct (at_bol _ _). Qed.

Lemma re_quote_nil p : re_match re_quote p [] = None.
Proof. unfold re_match. cbn -[at_bol]. by destruct (at_bol _ _). Qed.

Lemma sub_plain (r : regex) (t : list titem) (cs : list ascii) :
  (∀ p c cs, plain_from p (c :: cs) = true → re_match r p (c :: cs) = None) →
  (∀ p, re_match r p [] = None) →
  plain_from None cs = true → sub r t cs = cs.
Proof. intros Hc Hn Hp. unfold sub. by apply sub_loop_plain. Qed.

(** On plain text the regex stage only trims. *)
Lemma regex_stage_plain (cs : list ascii) :
  plain_from None cs = true → regex_stage cs = strip cs.
Proof.
  intros Hp. unfold regex_stage.
  rewrite (sub_plain re_heading _ _ re_heading_plain (λ _, eq_refl) Hp).
  rewrite (sub_plain re_link _ _ re_link_plain (λ _, eq_refl) Hp).
  rewrite (sub_plain re_strong _ _ re_strong_plain (λ _, eq_refl) Hp).
  rewrite (sub_plain re_em _ _ re_em_plain (λ _, eq_refl) Hp).
  rewrite (sub_plain re_list _ _ re_list_plain re_list_nil Hp).
  rewrite (sub_plain re_fence _ _ re_fence_plain (λ _, eq_refl) Hp).
  rewrite (sub_plain re_code _ _ re_code_plain (λ _, eq_refl) Hp).
  rewrite (sub_plain re_quote _ _ re_quote_plain re_quote_nil Hp).
  reflexivity.
Qed.

Lemma markdown_to_text_regex_stripped (s : string) :
  strip (list_ascii_of_string (markdown_to_text_regex s))
  = list_ascii_of_string (markdown_to_text_regex s).
Proof.
  unfold markdown_to_text_regex, regex_stage.
  rewrite list_ascii_of_string_of_list_ascii. apply strip_idem.
Qed.

Lemma normalize_stripped (L : MarkdownLib) (m : string) :
  strip (list_ascii_of_string (normalize L m))
  = list_ascii_of_string (normalize L m).
Proof. exact (markdown_to_text_regex_stripped (markdown_to_text L m)). Qed.

(** C7 (as amended).  Normalizing a normalized text [t = normalize m]
    gives [t] back whenever [t] is plain (none of the characters the regex
    stage rewrites, no list or quote marker at the start of a line) and the
    rich-text stage returns [t] as it is. *)
Theorem normalize_idempotent_on_plain (L : MarkdownLib) (m : string) :
  plain (normalize L m) = true →
  markdown_to_text L (normalize L m) = normalize L m →
  normalize L (normalize L m) = normalize L m.
Proof.
  intros Hplain Hstage1.
  pose proof (normalize_stripped L m) as Hs.
  generalize dependent (normalize L m). intros t Hplain Hstage1 Hs.
  unfold normalize. rewrite Hstage1.
  unfold markdown_to_text_regex.
  rewrite regex_stage_plain by exact Hplain.
  rewrite Hs. apply string_of_list_ascii_of_string.
Qed.

(** The one-item list of the table normalizes to a plain word. *)
Lemma normalize_idempotent_on_plain_witness :
  normalize Examples.table_lib Examples.doc_b = "item" ∧
  normalize Examples.table_lib "item" = "item".
Proof.
  split; [by vm_compute|].
  apply (normalize_idempotent_on_plain Examples.table_lib Examples.doc_b);
    by vm_compute.
Defined.

(** C7, counterexample.  Two hyphens before a word: the first pass removes
    one of them and leaves a list item, which the second pass rewrites
    again. *)
Lemma normalize_not_idempotent :
  normalize Examples.table_lib "-- a" = "- a" ∧
  normalize Examples.table_lib (normalize Examples.table_lib "-- a")
  ≠ normalize Examples.table_lib "-- a".
Proof. split; [by vm_compute|]. by vm_compute. Qed.

(** The regex stage alone already shows it. *)
Lemma regex_stage_not_idempotent :
  markdown_to_text_regex "-- a" = "- a" ∧ markdown_to_text_regex "- a" = "a".
Proof. split; by vm_compute. Qed.
End ReFacts.

Section CrawlerFacts.
Import AntiCrawl Normalizer Crawler.
Context {W : Type} (E : Env W).

(** *** The cache check *)

Lemma partition_cached_spec (hits : gmap string result_item) (urls : list string) :
  ∀ cached pending,
    partition_cached hits urls cached pending
    = (cached ++ omap (λ u, hits !! u) urls,
       pending ++ filter (λ u, hits !! u = None) urls).
Proof.
  induction urls as [|u urls IH]; intros cached pending; simpl.
  - by rewrite !app_nil_r.
  - destruct (hits !! u) as [[c r]|] eqn:Hu.
    + rewrite IH. simpl. rewrite filter_cons_False by (by rewrite Hu).
      by rewrite <- (assoc_L app).
    + rewrite IH. rewrite filter_cons_True by done.
      by rewrite <- (assoc_L app).
Qed.

Lemma cache_partition_spec (urls : list string) (instruction : string) :
  let hits := cache_hits_map E urls instruction in
  cache_partition E urls instruction
  = (omap (λ u, hits !! u) urls, filter (λ u, hits !! u = None) urls).
Proof.
  unfold cache_partition, cache_hits_map.
  assert (∀ us : list string,
    ([] : list result_item, us)
    = (omap (λ u, (∅ : gmap string result_item) !! u) us,
       filter (λ u, (∅ : gmap string result_item) !! u = None) us)) as Hempty.
  { intros us. f_equal.
    - induction us as [|u us IH]; [done|]. simpl. by rewrite lookup_empty.
    - induction us as [|u us IH]; [done|].
      rewrite filter_cons_True by apply lookup_empty. by f_equal. }
  destruct (cache_manager E) as [cm|]; [|apply Hempty].
  destruct (cache_is_available cm); [|apply Hempty].
  simpl. by rewrite partition_cached_spec.
Qed.

Lemma cache_check_run (urls : list string) (instruction : string) (w : W) :
  cache_check E urls instruction w
  = (Ok (cache_partition E urls instruction), w,
     get_log E urls instruction).
Proof.
  unfold cache_check, cache_partition, get_log, cache_available.
  destruct (cache_manager E) as [cm|]; [|done].
  by destruct (cache_is_available cm).
Qed.

(** *** The loop over the engine's results *)

Lemma process_results_spec (urls : list string) (results : list crawl_result) :
  ∀ i all rejected,
    i + length results ≤ length urls →
    process_results urls i results all rejected
    = Ok (all ++ accepted_of (drop i urls) results,
          rejected ++ rejected_of (drop i urls) results).
Proof.
  induction results as [|r results IH]; intros i all rejected Hlen.
  - unfold accepted_of, rejected_of. rewrite zip_with_nil_r. simpl.
    by rewrite !app_nil_r.
  - simpl in Hlen.
    destruct (lookup_lt_is_Some_2 urls i ltac:(lia)) as [u Hu].
    rewrite (drop_S _ _ _ Hu).
    cbn [process_results]. rewrite Hu.
    unfold accepted_of, rejected_of in *. cbn [zip_with omap].
    destruct r as [| |[md|]|]; cbn [accepted];
      rewrite IH by lia; cbn; by rewrite <- !(assoc_L app).
Qed.

Lemma process_results_raise (urls : list string) (results : list crawl_result) :
  ∀ i all rejected,
    i ≤ length urls →
    length urls < i + length results →
    process_results urls i results all rejected = Raise IndexError.
Proof.
  induction results as [|r results IH]; intros i all rejected Hi Hlen.
  - simpl in Hlen. lia.
  - simpl in Hlen. cbn [process_results].
    destruct (urls !! i) as [u|] eqn:Hu; [|done].
    apply lookup_lt_Some in Hu.
    destruct r as [| |[md|]|]; apply IH; lia.
Qed.

(** Whatever the engine returns, the URLs accepted and rejected by a pass
    are drawn from the batch, each position at most once. *)
Lemma process_results_submseteq (urls : list string) (results : list crawl_result) :
  ∀ i all rejected all' rejected',
    process_results urls i results all rejected = Ok (all', rejected') →
    ∃ A R, all' = all ++ A ∧ rejected' = rejected ++ R ∧
           (reference <$> A) ++ R ⊆+ drop i urls.
Proof.
  intros i all rejected all' rejected' Hrun.
  destruct (decide (length urls < i)) as [Hi|Hi].
  { destruct results as [|r results].
    - injection Hrun as <- <-. exists [], []. rewrite !app_nil_r.
      split; [done|]. split; [done|]. apply submseteq_nil_l.
    - cbn [process_results] in Hrun. rewrite lookup_ge_None_2 in Hrun by lia. done. }
  destruct (decide (i + length results ≤ length urls)) as [Hle|Hgt].
  - rewrite process_results_spec in Hrun by done. injection Hrun as <- <-.
    eexists _, _. split; [done|]. split; [done|].
    clear Hle. generalize (drop i urls). intros us.
    revert us. induction results as [|r results IH]; intros us.
    + unfold accepted_of, rejected_of. rewrite zip_with_nil_r. simpl.
      apply submseteq_nil_l.
    + destruct us as [|u us]; [apply submseteq_nil_l|].
      unfold accepted_of, rejected_of in *. cbn [zip_with omap].
      destruct r as [| |[md|]|]; simpl;
        first [ apply submseteq_skip, IH
              | rewrite <- Permutation_middle; apply submseteq_skip, IH ].
  - rewrite process_results_raise in Hrun by lia. done.
Qed.

(** *** The two backends *)

Lemma gather_run (urls : list string) :
  ∀ w, ∃ rs w',
    gather E urls w = (Ok rs, w', EvFetchWithReader <$> urls) ∧
    Forall2 (λ url r, ∀ x, r = Some x → ∃ w0 w1,
               fetch_with_reader E url w0 = (Some x, w1)) urls rs.
Proof.
  induction urls as [|url urls IH]; intros w.
  - exists [], w. by split.
  - cbn [gather]. unfold bind at 1. cbn [emit].
    unfold bind at 1. unfold call.
    destruct (fetch_with_reader E url w) as [r w1] eqn:Hf.
    destruct (IH w1) as (rs & w' & Hrun & Hall).
    unfold bind. rewrite Hrun. cbn.
    exists (r :: rs), w'. rewrite app_nil_r. split; [done|].
    constructor; [|done]. intros x ->. eauto.
Qed.

Lemma reader_path_run (urls : list string) (w : W) :
  ∃ rs w',
    reader_path E urls w = (Ok (omap id rs, []), w', EvFetchWithReader <$> urls) ∧
    Forall2 (λ url r, ∀ x, r = Some x → ∃ w0 w1,
               fetch_with_reader E url w0 = (Some x, w1)) urls rs.
Proof.
  destruct (gather_run urls w) as (rs & w' & Hrun & Hall).
  exists rs, w'. split; [|done].
  unfold reader_path, bind. rewrite Hrun. cbn. by rewrite app_nil_r.
Qed.

Lemma crawl4ai_path_run (urls : list string) (w : W) :
  crawl4ai_path E urls w =
    let results := (arun_many E urls w).1 in
    let w1 := (arun_many E urls w).2 in
    match process_results urls 0 results [] [] with
    | Raise e => (Raise e, w1, delay_log E ++ [EvArunMany urls])
    | Ok (all, []) => (Ok (all, []), w1, delay_log E ++ [EvArunMany urls])
    | Ok (all, retry) =>
        (process_results retry 0 (arun_many E retry w1).1 all [],
         (arun_many E retry w1).2,
         delay_log E ++ [EvArunMany urls; EvArunMany retry])
    end.
Proof.
  unfold crawl4ai_path, delay_log, bind, emit, call, lift, ret.
  destruct (ANTI_CRAWL_ENABLED E && enable_request_delay (anti_crawl_config E));
    cbn [app];
    (destruct (arun_many E urls w) as [results w1]; cbn [fst snd];
     destruct (process_results urls 0 results [] []) as [[all [|u retry]]|e];
     [ done
     | destruct (arun_many E (u :: retry) w1) as [rr w2]; cbn [fst snd];
       by destruct (process_results (u :: retry) 0 rr all [])
     | done ]).
Qed.

Lemma dispatch_run (urls : list string) (w : W) :
  dispatch E urls w =
    if READER_ENABLED E then reader_path E urls w else crawl4ai_path E urls w.
Proof. unfold dispatch. by destruct (READER_ENABLED E). Qed.

(** *** The whole call *)

Lemma crawl_urls_run (urls : list string) (instruction : string) (w : W) :
  crawl_urls E urls instruction w =
    let cached := (cache_partition E urls instruction).1 in
    let misses := (cache_partition E urls instruction).2 in
    match misses with
    | [] =>
        (Ok [("results", VResults cached);
             ("success_count", VInt (length cached));
             ("failed_urls", VUrls []);
             ("cache_hits", VInt (length cached))],
         w, get_log E urls instruction)
    | _ :: _ =>
        match dispatch E misses w with
        | (Raise e, w', log) =>
            (Raise (HTTP500 e), w', get_log E urls instruction ++ log)
        | (Ok ([], _), w', log) =>
            (Raise (HTTP500 AllCrawlsFailed), w', get_log E urls instruction ++ log)
        | (Ok (all, failed), w', log) =>
            let processed := process_result E <$> all in
            (Ok [("results", VResults (cached ++ processed));
                 ("success_count", VInt (length (cached ++ processed)));
                 ("failed_urls", VUrls (consolidate all misses failed));
                 ("cache_hits", VInt (length cached));
                 ("newly_crawled", VInt (length processed))],
             w',
             get_log E urls instruction ++ log ++ set_log E processed instruction)
        end
    end.
Proof.
  unfold crawl_urls, crawl_urls_body, try_except, bind.
  rewrite cache_check_run.
  destruct (cache_partition E urls instruction) as [cached misses]. cbn [fst snd].
  destruct misses as [|u misses].
  - unfold ret. by rewrite app_nil_r.
  - destruct (dispatch E (u :: misses) w) as [[[[all failed]|e] w'] log].
    + destruct all as [|a all].
      * unfold raise. by rewrite !app_nil_r.
      * unfold set_log. cbn [fmap list_fmap].
        rewrite bool_decide_eq_true_2 by done. rewrite andb_true_r.
        destruct (cache_available E); unfold emit, ret; cbn;
          by rewrite ?app_nil_r.
    + unfold raise. by rewrite !app_nil_r.
Qed.

Lemma process_results_exn urls results i all rejected e :
  process_results urls i results all rejected = Raise e → e = IndexError.
Proof.
  revert i all rejected.
  induction results as [|r results IH]; intros i all rejected; [done|].
  cbn [process_results]. destruct (urls !! i) as [u|]; [|congruence].
  destruct r as [| |[md|]|]; apply IH.
Qed.

Lemma dispatch_exn urls w e :
  outcome (dispatch E urls) w = Raise e → e = IndexError.
Proof.
  unfold outcome. rewrite dispatch_run.
  destruct (READER_ENABLED E).
  - destruct (reader_path_run urls w) as (rs & w' & -> & _). done.
  - rewrite crawl4ai_path_run. cbn zeta.
    destruct (process_results urls 0 _ [] []) as [[all [|u retry]]|e'] eqn:H1;
      cbn [fst snd].
    + done.
    + apply process_results_exn.
    + intros [= <-]. by eapply process_results_exn.
Qed.

(** C1 (as amended).  [crawl_urls] raises the all-crawls-failed error if
    and only if at least one URL missed the cache and dispatch and retry
    fetched no result for any miss, cache hits or not; and it returns the
    cached results alone, without calling a backend, exactly when no URL
    missed the cache. *)
Theorem fatal_iff_no_fresh_result (urls : list string) (instruction : string) (w : W) :
  let cached := (cache_partition E urls instruction).1 in
  let misses := (cache_partition E urls instruction).2 in
  (outcome (crawl_urls E urls instruction) w = Raise (HTTP500 AllCrawlsFailed)
   ↔ misses ≠ [] ∧ ∃ failed, outcome (dispatch E misses) w = Ok ([], failed))
  ∧ (misses = [] ↔
     outcome (crawl_urls E urls instruction) w =
       Ok [("results", VResults cached);
           ("success_count", VInt (length cached));
           ("failed_urls", VUrls []);
           ("cache_hits", VInt (length cached))]).
Proof.
  intros cached misses. unfold outcome at 1 3. rewrite crawl_urls_run.
  fold cached misses. cbn zeta.
  destruct misses as [|u misses'] eqn:Hm.
  - cbn [fst snd]. split; [|done]. split; [done|]. by intros [? _].
  - pose proof (dispatch_exn (u :: misses') w) as Hexn. unfold outcome in *.
    destruct (dispatch E (u :: misses') w) as [[[[all failed]|e] w'] log];
      cbn [fst snd] in *.
    + destruct all as [|a all]; cbn [fst snd].
      * split; [|done]. split; [eauto|done].
      * split; [|done]. split; [done|]. by intros [_ [? [=]]].
    + rewrite (Hexn e eq_refl). split; [|done].
      split; [done|]. by intros [_ [? ?]].
Qed.

(** *** Classification of engine results *)

Lemma elem_of_accepted_of urls results x :
  x ∈ accepted_of urls results ↔
  ∃ i md, urls !! i = Some (reference x) ∧
          results !! i = Some (ResultSuccess (Some md)) ∧ content x = md.
Proof.
  unfold accepted_of. rewrite list_elem_of_omap. split.
  - intros ([u r] & Hin & Hacc).
    apply elem_of_lookup_zip_with in Hin as (i & u' & r' & [= <- <-] & Hu & Hr).
    destruct r as [| |[md|]|]; try done. injection Hacc as <-.
    exists i, md. done.
  - intros (i & md & Hu & Hr & Hc).
    exists (reference x, ResultSuccess (Some md)). split.
    + apply elem_of_lookup_zip_with. eauto 10.
    + simpl. destruct x. simpl in *. by subst.
Qed.

Lemma elem_of_rejected_of urls results url :
  url ∈ rejected_of urls results ↔
  ∃ i r, urls !! i = Some url ∧ results !! i = Some r ∧
         ∀ md, r ≠ ResultSuccess (Some md).
Proof.
  unfold rejected_of. rewrite list_elem_of_omap. split.
  - intros ([u r] & Hin & Hacc).
    apply elem_of_lookup_zip_with in Hin as (i & u' & r' & [= <- <-] & Hu & Hr).
    destruct r as [| |[md|]|]; try done; injection Hacc as <-;
      exists i; eexists; (split; [done|]); (split; [done|]); done.
  - intros (i & r & Hu & Hr & Hno).
    exists (url, r). split.
    + apply elem_of_lookup_zip_with. eauto 10.
    + destruct r as [| |[md|]|]; try done. by destruct (Hno md).
Qed.

(** C5 (as amended).  For a pass whose engine results do not outnumber the
    URLs, a URL is accepted exactly when its result reports success and
    carries the content field, whatever the content, the empty string
    included; every other result sends the URL to the rejected list (the
    retry list on the first pass, the failed list on the second). *)
Theorem accepted_iff_success_with_content_field
    (urls : list string) (results : list crawl_result) :
  length results ≤ length urls →
  process_results urls 0 results [] []
    = Ok (accepted_of urls results, rejected_of urls results)
  ∧ (∀ x, x ∈ accepted_of urls results ↔
       ∃ i md, urls !! i = Some (reference x) ∧
               results !! i = Some (ResultSuccess (Some md)) ∧ content x = md)
  ∧ (∀ url, url ∈ rejected_of urls results ↔
       ∃ i r, urls !! i = Some url ∧ results !! i = Some r ∧
              ∀ md, r ≠ ResultSuccess (Some md))
  ∧ (∀ url, accepted url (ResultSuccess (Some ""))
            = Some {| content := ""; reference := url |}).
Proof.
  intros Hlen. split.
  - by rewrite process_results_spec by (simpl; lia).
  - split; [apply elem_of_accepted_of|]. split; [apply elem_of_rejected_of|done].
Qed.

(** *** Backend calls *)

Lemma backend_calls_app l1 l2 :
  backend_calls (l1 ++ l2) = backend_calls l1 ++ backend_calls l2.
Proof. apply filter_app. Qed.

Lemma backend_calls_get_log urls instruction :
  backend_calls (get_log E urls instruction) = [].
Proof. unfold get_log. by destruct (cache_available E). Qed.

Lemma backend_calls_set_log rs instruction :
  backend_calls (set_log E rs instruction) = [].
Proof. unfold set_log. by destruct (cache_available E). Qed.

Lemma backend_calls_delay_log : backend_calls (delay_log E) = [].
Proof.
  unfold delay_log.
  by destruct (ANTI_CRAWL_ENABLED E && enable_request_delay (anti_crawl_config E)).
Qed.

Lemma backend_calls_fetches urls :
  backend_calls (EvFetchWithReader <$> urls) = EvFetchWithReader <$> urls.
Proof.
  induction urls as [|u urls IH]; [done|].
  cbn [fmap list_fmap]. unfold backend_calls in *.
  rewrite filter_cons_True by done. by f_equal.
Qed.

Lemma crawl_urls_backend_calls urls instruction w :
  backend_calls (trace (crawl_urls E urls instruction) w) =
    match (cache_partition E urls instruction).2 with
    | [] => []
    | misses => backend_calls (trace (dispatch E misses) w)
    end.
Proof.
  unfold trace. rewrite crawl_urls_run. cbn zeta.
  destruct (cache_partition E urls instruction).2 as [|u misses].
  - apply backend_calls_get_log.
  - destruct (dispatch E (u :: misses) w) as [[[[all failed]|e] w'] log];
      cbn [fst snd].
    + destruct all as [|a all]; cbn [snd];
        rewrite ?backend_calls_app, backend_calls_get_log,
          ?backend_calls_set_log, ?app_nil_r; done.
    + by rewrite backend_calls_app, backend_calls_get_log.
Qed.

Lemma dispatch_backend_calls urls w :
  backend_calls (trace (dispatch E urls) w) =
    if READER_ENABLED E then EvFetchWithReader <$> urls
    else EvArunMany urls ::
         match process_results urls 0 (arun_many E urls w).1 [] [] with
         | Ok (_, retry_url :: retry_urls) => [EvArunMany (retry_url :: retry_urls)]
         | _ => []
         end.
Proof.
  unfold trace. rewrite dispatch_run.
  destruct (READER_ENABLED E).
  - destruct (reader_path_run urls w) as (rs & w' & -> & _).
    apply backend_calls_fetches.
  - rewrite crawl4ai_path_run. cbn zeta.
    destruct (process_results urls 0 _ [] []) as [[all [|u retry]]|e];
      cbn [snd]; rewrite backend_calls_app, backend_calls_delay_log; done.
Qed.

(** C3 (as amended).  The backend calls of a [crawl_urls] call.  With the
    reader backend: one fetch per cache miss, in order, and no retry.  With
    the engine backend: nothing if there is no miss, else one batch with
    the misses, followed by at most one more batch, which is there exactly
    when the first pass rejected a URL and holds exactly the rejected URLs;
    no third batch.  For engine results that do not outnumber the misses the
    rejected URLs are those whose result was not accepted. *)
Theorem retry_only_in_engine_path
    (urls : list string) (instruction : string) (w : W) :
  let misses := (cache_partition E urls instruction).2 in
  let results := (arun_many E misses w).1 in
  backend_calls (trace (crawl_urls E urls instruction) w) =
    (if READER_ENABLED E then EvFetchWithReader <$> misses
     else match misses with
          | [] => []
          | _ :: _ =>
              EvArunMany misses ::
              match process_results misses 0 results [] [] with
              | Ok (_, retry_url :: retry_urls) =>
                  [EvArunMany (retry_url :: retry_urls)]
              | _ => []
              end
          end)
  ∧ (length results ≤ length misses →
     process_results misses 0 results [] []
     = Ok (accepted_of misses results, rejected_of misses results)).
Proof.
  intros misses results. split.
  - rewrite crawl_urls_backend_calls. fold misses.
    destruct misses as [|u misses'] eqn:Hm.
    + by destruct (READER_ENABLED E).
    + rewrite dispatch_backend_calls. by destruct (READER_ENABLED E).
  - intros Hlen. by rewrite process_results_spec by (simpl; lia).
Qed.

(** *** Accounting *)

Lemma submseteq_NoDup {A} (l k : list A) : l ⊆+ k → NoDup k → NoDup l.
Proof.
  intros Hsub Hk. apply submseteq_sublist_l in Hsub as (l' & Hl & Hp).
  eapply sublist_NoDup; [|exact Hl]. by rewrite Hp.
Qed.

Lemma length_omap_filter {A B} (f : A → option B) (l : list A) :
  length (omap f l) + length (filter (λ x, f x = None) l) = length l.
Proof.
  induction l as [|x l IH]; [done|]. cbn [omap list_omap].
  destruct (f x) eqn:Hx.
  - rewrite filter_cons_False by (by rewrite Hx). cbn [length]. lia.
  - rewrite filter_cons_True by done. cbn [length]. lia.
Qed.

Lemma dispatch_submseteq urls w all failed :
  (READER_ENABLED E = true → reader_faithful E) →
  outcome (dispatch E urls) w = Ok (all, failed) →
  (reference <$> all) ++ failed ⊆+ urls.
Proof.
  intros Hreader. unfold outcome. rewrite dispatch_run.
  destruct (READER_ENABLED E).
  - specialize (Hreader eq_refl).
    destruct (reader_path_run urls w) as (rs & w' & -> & Hall).
    cbn [fst]. intros [= <- <-]. rewrite app_nil_r.
    apply sublist_submseteq.
    induction Hall as [|url r urls rs Hr Hall IH]; [done|].
    destruct r as [x|]; simpl.
    + destruct (Hr x eq_refl) as (w0 & w1 & Hf).
      rewrite (Hreader _ _ _ _ Hf). by apply sublist_skip.
    + by apply sublist_cons.
  - rewrite crawl4ai_path_run. cbn zeta.
    destruct (process_results urls 0 _ [] []) as [[all1 retry]|e] eqn:H1;
      [|by destruct e].
    apply process_results_submseteq in H1 as (A1 & R1 & -> & -> & Hsub1).
    cbn [app drop] in Hsub1.
    destruct R1 as [|u R1]; cbn [fst].
    + intros [= <- <-]. done.
    + intros H2.
      apply process_results_submseteq in H2 as (A2 & R2 & -> & -> & Hsub2).
      cbn [app drop] in Hsub2.
      rewrite fmap_app, <- (assoc_L app).
      etrans; [|exact Hsub1]. by apply submseteq_skips_l.
Qed.

Lemma reference_processed (all : list result_item) :
  reference <$> (process_result E <$> all) = reference <$> all.
Proof. rewrite <- list_fmap_compose. by apply list_fmap_ext. Qed.

Lemma elem_of_consolidate all misses failed0 url :
  (reference <$> all) ++ failed0 ⊆+ misses → NoDup misses →
  url ∈ consolidate all misses failed0 ↔ url ∈ misses ∧ url ∉ (reference <$> all).
Proof.
  intros Hsub Hnd. pose proof (submseteq_NoDup _ _ Hsub Hnd) as Hnd'.
  apply NoDup_app in Hnd' as (_ & Hdisj & _).
  unfold consolidate, crawled_urls.
  rewrite elem_of_app, list_elem_of_filter, elem_of_list_to_set.
  split; [|tauto].
  intros [Hf|?]; [|tauto]. split.
  - eapply elem_of_submseteq; [|exact Hsub]. apply elem_of_app. by right.
  - intros Hr. by apply (Hdisj _ Hr).
Qed.

Lemma size_consolidate all misses failed0 :
  (reference <$> all) ++ failed0 ⊆+ misses → NoDup misses →
  length all + size (list_to_set (consolidate all misses failed0) : gset string)
  = length misses.
Proof.
  intros Hsub Hnd. pose proof (submseteq_NoDup _ _ Hsub Hnd) as Hnd'.
  apply NoDup_app in Hnd' as (HndR & Hdisj & _).
  set (R := reference <$> all) in *.
  assert (list_to_set (consolidate all misses failed0)
          = (list_to_set (filter (λ u, u ∉ R) misses) : gset string)) as ->.
  { apply set_eq. intros u.
    rewrite !elem_of_list_to_set, elem_of_consolidate by done.
    rewrite list_elem_of_filter. fold R. tauto. }
  rewrite size_list_to_set by by apply NoDup_filter.
  assert (filter (λ u, u ∈ R) misses ≡ₚ R) as HR.
  { apply NoDup_Permutation; [by apply NoDup_filter|done|].
    intros u. rewrite list_elem_of_filter. split; [tauto|].
    intros Hu. split; [done|].
    eapply elem_of_submseteq; [|exact Hsub]. apply elem_of_app. by left. }
  rewrite <- (length_fmap reference all). fold R. rewrite <- HR.
  rewrite <- length_app.
  by rewrite (filter_app_complement (λ u, u ∈ R) misses).
Qed.

(** C2 (as amended).  For pairwise distinct input URLs (and a reader that
    answers for the URL it was asked), a response that [crawl_urls] returns
    splits its results into the cached ones and the freshly fetched ones,
    with [success_count] their total number, [cache_hits] the number of
    cached ones and, when some URL missed the cache, [newly_crawled] the
    number of fresh ones; every input URL is a cache hit, or the reference
    of a fresh result, or a member of [failed_urls], and exactly one of the
    three; nothing else is among the fresh references and the failed URLs;
    and [success_count] plus the number of distinct failed URLs is the
    number of input URLs. *)
Theorem crawl_accounting
    (urls : list string) (instruction : string) (w : W) (d : response) :
  NoDup urls →
  (READER_ENABLED E = true → reader_faithful E) →
  outcome (crawl_urls E urls instruction) w = Ok d →
  let hits := cache_hits_map E urls instruction in
  let misses := (cache_partition E urls instruction).2 in
  ∃ cached fresh failed,
    get_results d = Some (cached ++ fresh) ∧
    get_int "success_count" d = Some (length cached + length fresh) ∧
    get_int "cache_hits" d = Some (length cached) ∧
    (misses ≠ [] → get_int "newly_crawled" d = Some (length fresh)) ∧
    get_failed_urls d = Some failed ∧
    cached = omap (λ u, hits !! u) urls ∧
    (∀ url, url ∈ urls →
       (is_Some (hits !! url) ∧ (url ∉ reference <$> fresh) ∧ (url ∉ failed)) ∨
       (hits !! url = None ∧ (url ∈ reference <$> fresh) ∧ (url ∉ failed)) ∨
       (hits !! url = None ∧ (url ∉ reference <$> fresh) ∧ (url ∈ failed))) ∧
    (∀ url, url ∈ (reference <$> fresh) ∨ url ∈ failed → url ∈ urls) ∧
    NoDup (reference <$> fresh) ∧
    length cached + length fresh + size (list_to_set failed : gset string)
    = length urls.
Proof.
  intros Hnd Hreader Hrun hits misses.
  pose proof (cache_partition_spec urls instruction) as Hpart.
  cbn zeta in Hpart. fold hits in Hpart.
  assert (misses = filter (λ u, hits !! u = None) urls) as Hmisses
    by (unfold misses; by rewrite Hpart).
  assert (NoDup misses) as Hndm by (rewrite Hmisses; by apply NoDup_filter).
  pose proof (length_omap_filter (λ u, hits !! u) urls) as Hlen.
  cbn beta in Hlen. rewrite <- Hmisses in Hlen.
  unfold outcome in Hrun. rewrite crawl_urls_run in Hrun. cbn zeta in Hrun.
  fold misses in Hrun. rewrite Hpart in Hrun. cbn [fst] in Hrun.
  destruct misses as [|u misses'] eqn:Hm.
  - cbn [fst] in Hrun. injection Hrun as <-.
    exists (omap (λ u, hits !! u) urls), [], [].
    rewrite app_nil_r. simpl in Hlen.
    split; [done|]. split; [cbn; by rewrite Nat.add_0_r|].
    split; [done|]. split; [done|]. split; [done|]. split; [done|].
    split; [|split; [|split]].
    + intros url Hurl. left.
      split; [|split; apply not_elem_of_nil].
      destruct (hits !! url) eqn:Hu; [done|].
      assert (url ∈ filter (λ u, hits !! u = None) urls) as Hin
        by (by apply list_elem_of_filter).
      rewrite <- Hmisses in Hin. by apply not_elem_of_nil in Hin.
    + intros url [H|H]; by apply not_elem_of_nil in H.
    + constructor.
    + rewrite list_to_set_nil, size_empty. simpl. lia.
  - pose proof (dispatch_submseteq (u :: misses') w) as Hsub.
    unfold outcome in Hsub.
    destruct (dispatch E (u :: misses') w) as [[[[all failed0]|e] w'] log];
      cbn [fst] in *; [|done].
    destruct all as [|a all]; [done|]. cbn [fst] in Hrun. injection Hrun as <-.
    specialize (Hsub _ _ Hreader eq_refl).
    set (all' := a :: all) in *.
    pose proof (submseteq_NoDup _ _ Hsub Hndm) as Hnd'.
    apply NoDup_app in Hnd' as (HndR & _ & _).
    exists (omap (λ u, hits !! u) urls), (process_result E <$> all'),
      (consolidate all' (u :: misses') failed0).
    rewrite reference_processed.
    split; [done|]. split; [cbn; by rewrite length_app|].
    split; [done|]. split; [done|]. split; [done|]. split; [done|].
    assert (∀ url, url ∈ u :: misses' ↔ hits !! url = None ∧ url ∈ urls) as Hin.
    { intros url. rewrite Hmisses. by rewrite list_elem_of_filter. }
    assert (∀ url, url ∈ (reference <$> all') → url ∈ u :: misses') as HR.
    { intros url Hu. eapply elem_of_submseteq; [|exact Hsub].
      apply elem_of_app. by left. }
    split; [|split; [|split]].
    + intros url Hurl. rewrite elem_of_consolidate by done.
      destruct (hits !! url) as [x|] eqn:Hu.
      * left. split; [done|]. split.
        -- intros Hc. apply HR, Hin in Hc as [? _]. congruence.
        -- intros [Hc _]. apply Hin in Hc as [? _]. congruence.
      * right. destruct (decide (url ∈ (reference <$> all'))) as [Hc|Hc].
        -- left. tauto.
        -- right. split; [done|]. split; [done|]. split; [|done].
           apply Hin. done.
    + intros url [Hc|Hc].
      * apply HR, Hin in Hc. tauto.
      * apply elem_of_consolidate in Hc as [Hc _]; [|done..].
        apply Hin in Hc. tauto.
    + done.
    + pose proof (size_consolidate all' (u :: misses') failed0 Hsub Hndm).
      rewrite length_fmap. lia.
Qed.
End CrawlerFacts.

Section Worked.
Import AntiCrawl Normalizer Crawler Examples.

(** C1, counterexample.  URL a is a cache hit, b a miss that fails both
    passes: the call raises, and the cached result is not returned. *)
Lemma cached_hit_does_not_prevent_fatal :
  let E := env false (Some cache_with_a) (λ _, None) failing_engine in
  (cache_partition E [url_a; url_b] "q").1
    = [{| content := "cached"; reference := url_a |}] ∧
  outcome (crawl_urls E [url_a; url_b] "q") 0 = Raise (HTTP500 AllCrawlsFailed).
Proof. split; by vm_compute. Qed.

(** C2, counterexample.  The same URL twice, fetched both times: two
    results, no failed URL, one unique input URL. *)
Lemma duplicate_urls_break_accounting :
  ∃ d sc fu,
    outcome (crawl_urls (env false None (λ _, None) item_engine)
               [url_a; url_a] "q") 0 = Ok d ∧
    get_int "success_count" d = Some sc ∧
    get_failed_urls d = Some fu ∧
    sc + length fu ≠ size (list_to_set [url_a; url_a] : gset string).
Proof.
  eexists _, _, _. split; [by vm_compute|]. split; [by vm_compute|].
  split; [by vm_compute|]. by vm_compute.
Qed.

(** A URL that fails both passes of the engine path is put on the failed
    list by the retry loop and once more by the consolidation. *)
Lemma twice_failed_url_listed_twice :
  outcome (crawl_urls (env false None (λ _, None) half_engine)
             [url_a; url_b] "q") 0
  = Ok [("results", VResults [{| content := "item"; reference := url_a |}]);
        ("success_count", VInt 1);
        ("failed_urls", VUrls [url_b; url_b]);
        ("cache_hits", VInt 0);
        ("newly_crawled", VInt 1)].
Proof. by vm_compute. Qed.

(** Two distinct URLs, a fetched, b failing both passes. *)
Lemma crawl_accounting_witness :
  ∃ (cached fresh : list result_item) (failed : list string),
    get_failed_urls
      [("results", VResults [{| content := "item"; reference := url_a |}]);
       ("success_count", VInt 1);
       ("failed_urls", VUrls [url_b; url_b]);
       ("cache_hits", VInt 0);
       ("newly_crawled", VInt 1)] = Some failed ∧
    length cached + length fresh + size (list_to_set failed : gset string) = 2.
Proof.
  destruct (crawl_accounting (env false None (λ _, None) half_engine)
              [url_a; url_b] "q" 0
              [("results", VResults [{| content := "item"; reference := url_a |}]);
               ("success_count", VInt 1);
               ("failed_urls", VUrls [url_b; url_b]);
               ("cache_hits", VInt 0);
               ("newly_crawled", VInt 1)])
    as (cached & fresh & failed & _ & _ & _ & _ & Hf & _ & _ & _ & _ & Hcount).
  - apply (bool_decide_unpack _). by vm_compute.
  - intros [=].
  - by vm_compute.
  - exists cached, fresh, failed. split; [exact Hf | exact Hcount].
Defined.

(** C3, counterexample.  Reader backend, b fails: each URL is fetched once,
    b is reported failed, and no second dispatch takes place. *)
Lemma reader_path_never_retries :
  let E := env true None half_reader failing_engine in
  trace (crawl_urls E [url_a; url_b] "q") 0
    = [EvFetchWithReader url_a; EvFetchWithReader url_b] ∧
  outcome (crawl_urls E [url_a; url_b] "q") 0
    = Ok [("results", VResults [{| content := "item"; reference := url_a |}]);
          ("success_count", VInt 1);
          ("failed_urls", VUrls [url_b]);
          ("cache_hits", VInt 0);
          ("newly_crawled", VInt 1)].
Proof. split; by vm_compute. Qed.

(** The example of the specification: two batches, the second with b alone. *)
Lemma retry_only_in_engine_path_witness :
  backend_calls
    (trace (crawl_urls (spec_env table_lib) [url_a; url_b] "weather today") 0)
  = [EvArunMany [url_a; url_b]; EvArunMany [url_b]] ∧
  process_results [url_a; url_b] 0
    [ResultSuccess (Some doc_a); ResultFailure] [] []
  = Ok ([{| content := doc_a; reference := url_a |}], [url_b]).
Proof.
  destruct (retry_only_in_engine_path (spec_env table_lib)
              [url_a; url_b] "weather today" 0) as [Hcalls Hpass].
  split.
  - rewrite Hcalls. by vm_compute.
  - apply Hpass. vm_compute. lia.
Defined.

(** C5, counterexample.  A result reporting success with the empty string as
    content is accepted: it is among the results, and the URL is neither
    retried nor failed. *)
Lemma empty_content_is_accepted :
  process_results [url_a] 0 [ResultSuccess (Some "")] [] []
    = Ok ([{| content := ""; reference := url_a |}], []) ∧
  crawl_urls (env false None (λ _, None) empty_engine) [url_a] "q" 0
    = (Ok [("results", VResults [{| content := ""; reference := url_a |}]);
           ("success_count", VInt 1);
           ("failed_urls", VUrls []);
           ("cache_hits", VInt 0);
           ("newly_crawled", VInt 1)],
       1, [EvApplyDelay; EvArunMany [url_a]]).
Proof. split; by vm_compute. Qed.

(** One result with empty content, one without the content field. *)
Lemma accepted_iff_success_with_content_field_witness :
  process_results [url_a; url_b] 0
    [ResultSuccess (Some ""); ResultSuccess None] [] []
  = Ok ([{| content := ""; reference := url_a |}], [url_b]).
Proof.
  apply (accepted_iff_success_with_content_field [url_a; url_b]
           [ResultSuccess (Some ""); ResultSuccess None]).
  vm_compute. lia.
Defined.

(** C6, at the failing input.  Every URL a cache hit: the response has the
    four keys results, success_count, failed_urls and cache_hits, and no
    newly_crawled. *)
Lemma all_cached_response_lacks_newly_crawled :
  let E := env false (Some cache_with_a) (λ _, None) failing_engine in
  crawl_urls E [url_a] "q" 0
    = (Ok [("results", VResults [{| content := "cached"; reference := url_a |}]);
           ("success_count", VInt 1);
           ("failed_urls", VUrls []);
           ("cache_hits", VInt 1)],
       0, [EvGetBatch [url_a] "q"]) ∧
  get "newly_crawled"
    [("results", VResults [{| content := "cached"; reference := url_a |}]);
     ("success_count", VInt 1);
     ("failed_urls", VUrls []);
     ("cache_hits", VInt 1)] = None.
Proof. split; by vm_compute. Qed.

Lemma normalize_by_strings (L : MarkdownLib) (md : string) (ss : list string) :
  soup_strings L md = ss →
  normalize L md
  = markdown_to_text_regex
      (string_of_list_ascii
         (clean_lines (Str.join [Re.LF] (list_ascii_of_string <$> ss)))).
Proof. intros <-. reflexivity. Qed.

(** C4 (as amended).  The end-to-end example, with the engine backend and
    the rich-text libraries yielding the strings of the two documents: the
    call returns the two results in the order a, b, with [cache_hits = 0],
    [newly_crawled = 2] and no failed URL; the content of a is the three
    words Hi, bold and link on three lines, since the text nodes are joined
    by newlines. *)
Theorem spec_example (L : MarkdownLib) :
  soup_strings L doc_a = ["Hi"; nl; "bold"; " "; "link"] →
  soup_strings L doc_b = [nl; "item"; nl] →
  crawl_urls (spec_env L) [url_a; url_b] "weather today" 0
  = (Ok [("results",
          VResults [{| content := "Hi" +:+ nl +:+ "bold" +:+ nl +:+ "link";
                       reference := url_a |};
                    {| content := "item"; reference := url_b |}]);
         ("success_count", VInt 2);
         ("failed_urls", VUrls []);
         ("cache_hits", VInt 0);
         ("newly_crawled", VInt 2)],
     2,
     [EvGetBatch [url_a; url_b] "weather today";
      EvApplyDelay;
      EvArunMany [url_a; url_b];
      EvArunMany [url_b];
      EvSetBatch
        [{| item_url := url_a;
            item_content := "Hi" +:+ nl +:+ "bold" +:+ nl +:+ "link";
            item_reference := url_a |};
         {| item_url := url_b; item_content := "item"; item_reference := url_b |}]
        "weather today"]).
Proof.
  intros Ha Hb.
  assert (normalize L doc_a = "Hi" +:+ nl +:+ "bold" +:+ nl +:+ "link") as Hna
    by (rewrite (normalize_by_strings _ _ _ Ha); by vm_compute).
  assert (normalize L doc_b = "item") as Hnb
    by (rewrite (normalize_by_strings _ _ _ Hb); by vm_compute).
  rewrite crawl_urls_run.
  replace (cache_partition (spec_env L) [url_a; url_b] "weather today")
    with (([] : list result_item), [url_a; url_b]) by (by vm_compute).
  cbn zeta. cbn [fst snd].
  replace (dispatch (spec_env L) [url_a; url_b] 0)
    with (Ok ([{| content := doc_a; reference := url_a |};
               {| content := doc_b; reference := url_b |}], ([] : list string)),
          2, [EvApplyDelay; EvArunMany [url_a; url_b]; EvArunMany [url_b]])
    by (by vm_compute).
  cbn [fmap list_fmap]. unfold process_result, set_log.
  cbn [markdown_lib spec_env content reference fmap list_fmap].
  rewrite Hna, Hnb. by vm_compute.
Qed.

(** The example with the strings of the table. *)
Lemma spec_example_witness :
  get_results
    (match outcome (crawl_urls (spec_env table_lib) [url_a; url_b] "weather today") 0 with
     | Ok d => d
     | Raise _ => []
     end)
  = Some [{| content := "Hi" +:+ nl +:+ "bold" +:+ nl +:+ "link";
             reference := url_a |};
          {| content := "item"; reference := url_b |}].
Proof.
  unfold outcome.
  rewrite (spec_example table_lib); by vm_compute.
Defined.

(** C4, counterexample.  The results of the example are not the ones the
    claim lists: the content of a is not on one line. *)
Lemma spec_example_content_has_line_breaks :
  match outcome (crawl_urls (spec_env table_lib) [url_a; url_b] "weather today") 0 with
  | Ok d =>
      get_results d
      ≠ Some [{| content := "Hi bold link"; reference := url_a |};
              {| content := "item"; reference := url_b |}]
  | Raise _ => False
  end.
Proof. by vm_compute. Qed.
End Worked.

Section PoolFacts.
Import Random AntiCrawl ProxyOps.

Lemma cursor_ok_init ps : cursor_ok (ProxyPool_init ps).
Proof.
  unfold cursor_ok, ProxyPool_init. simpl.
  destruct (default [] ps) as [|p l]; [by right|left; simpl; lia].
Qed.

Lemma cursor_ok_add (p : ProxyPool) (ps : list ProxyConfig) :
  cursor_ok p → cursor_ok (add_proxies p ps).
Proof.
  unfold cursor_ok, add_proxies. simpl. intros [Hlt|[Hnil H0]].
  - left. rewrite length_app. lia.
  - rewrite Hnil, H0. simpl. destruct ps as [|q ps]; [by right|left; simpl; lia].
Qed.

Lemma get_next_ok (p : ProxyPool) :
  cursor_ok p →
  ∃ x p', get_next p = Ok (x, p') ∧ cursor_ok p' ∧ proxies p' = proxies p ∧
          (∀ q, x = Some q → q ∈ proxies p) ∧
          (x = None ↔ proxies p = []).
Proof.
  unfold cursor_ok, get_next. intros [Hlt|[Hnil H0]].
  - destruct (lookup_lt_is_Some_2 _ _ Hlt) as [q Hq].
    destruct (proxies p) as [|q0 l] eqn:Hp; [simpl in Hlt; lia|].
    rewrite Hq. eexists _, _. split; [done|]. cbn [proxies current_index].
    split; [left; apply Nat.mod_upper_bound; simpl; lia|]. split; [done|].
    split; [|done].
    intros ? [= <-]. by eapply list_elem_of_lookup_2.
  - rewrite Hnil. exists None, p. split; [done|]. split; [by right|].
    rewrite Hnil. done.
Qed.

Lemma get_random_ok (p : ProxyPool) (g : rng) :
  ∃ x g', ProxyPool_get_random p g = Ok (x, g') ∧
          (∀ q, x = Some q → q ∈ proxies p) ∧
          (x = None ↔ proxies p = []).
Proof.
  unfold ProxyPool_get_random.
  destruct (proxies p) as [|q0 l] eqn:Hp.
  - exists None, g. done.
  - destruct (choice_ok (q0 :: l) g) as (x & g' & Hc & Hin); [done|].
    rewrite Hc. simpl. eexists _, _. split; [done|]. split; [|done].
    by intros ? [= <-].
Qed.

Lemma run_ops_ok (os : list pool_op) :
  ∀ (p : ProxyPool) (g : rng),
  cursor_ok p →
  ∃ xs p' g',
    run_ops os p g = Ok (xs, p', g') ∧ cursor_ok p' ∧
    length xs = length os ∧
    proxies p `prefix_of` proxies p' ∧
    Forall (λ x, ∀ q, x = Some q → q ∈ proxies p') xs.
Proof.
  induction os as [|o os IH]; intros p g Hok.
  - exists [], p, g. done.
  - cbn [run_ops].
    assert (∃ x p1 g1, run_op o p g = Ok (x, p1, g1) ∧ cursor_ok p1 ∧
              proxies p `prefix_of` proxies p1 ∧
              (∀ q, x = Some q → q ∈ proxies p1)) as (x & p1 & g1 & -> & Hok1 & Hpre1 & Hx).
    { destruct o as [q|qs| |]; cbn [run_op].
      - eexists _, _, _. split; [done|]. split; [by apply (cursor_ok_add p [q])|].
        split; [by apply prefix_app_r|done].
      - eexists _, _, _. split; [done|]. split; [by apply cursor_ok_add|].
        split; [by apply prefix_app_r|done].
      - destruct (get_next_ok p Hok) as (x & p' & -> & Hok' & Hp' & Hx & _).
        eexists _, _, _. split; [done|]. split; [done|]. rewrite Hp'. done.
      - destruct (get_random_ok p g) as (x & g' & -> & Hx & _).
        eexists _, _, _. split; [done|]. done. }
    destruct (IH p1 g1 Hok1) as (xs & p' & g' & Hrun & Hok' & Hlen & Hpre & Hxs).
    cbn [res_bind]. rewrite Hrun. cbn [res_bind]. eexists _, _, _. split; [done|]. split; [done|].
    split; [simpl; lia|]. split; [by etrans|].
    constructor; [|done]. intros q Hq.
    destruct Hpre as [k ->]. apply elem_of_app. left. by apply Hx.
Qed.

(** X1.  A pool built by [ProxyPool.__init__], under any sequence of
    [add_proxy], [add_proxies], [get_next] and [get_random] calls: no call
    raises, the cursor stays inside the pool (or at 0 while the pool is
    empty), the pool only grows at its end, and every proxy a read
    returned is in the pool. *)
Theorem proxy_pool_calls_never_raise
    (ps : option (list ProxyConfig)) (os : list pool_op) (g : rng) :
  ∃ xs p' g',
    run_ops os (ProxyPool_init ps) g = Ok (xs, p', g') ∧
    length xs = length os ∧
    (current_index p' < length (proxies p') ∨
     (proxies p' = [] ∧ current_index p' = 0)) ∧
    default [] ps `prefix_of` proxies p' ∧
    ∀ q, Some q ∈ xs → q ∈ proxies p'.
Proof.
  destruct (run_ops_ok os (ProxyPool_init ps) g (cursor_ok_init ps))
    as (xs & p' & g' & Hrun & Hok & Hlen & Hpre & Hxs).
  exists xs, p', g'. split; [done|]. split; [done|]. split; [done|].
  split; [done|].
  intros q Hq. rewrite Forall_forall in Hxs. by apply (Hxs _ Hq).
Qed.

Lemma seq_rotate {A} (l : list A) (c0 : nat) :
  c0 < length l →
  (λ i, l !! ((c0 + i) mod length l)) <$> seq 0 (length l)
  = Some <$> rotate c0 l.
Proof.
  intros Hc. apply list_eq. intros i.
  rewrite !list_lookup_fmap.
  destruct (decide (i < length l)) as [Hi|Hi].
  - rewrite lookup_seq_lt by done. simpl.
    rewrite lookup_rotate_r by done.
    unfold rotate_nat_add.
    rewrite <- Nat2Z.inj_add, <- Nat2Z.inj_mod, Nat2Z.id.
    destruct (lookup_lt_is_Some_2 l ((c0 + i) mod length l)) as [x Hx].
    { apply Nat.mod_upper_bound. lia. }
    by rewrite Hx.
  - rewrite lookup_seq_ge by lia. simpl.
    rewrite lookup_ge_None_2; [done|]. rewrite length_rotate. lia.
Qed.

(** X2.  Sequential rotation from any cursor position inside the pool:
    as many [get_proxy] calls as there are proxies return the URL of every
    pool entry exactly once, in pool order starting at the cursor and
    wrapping around, and leave the policy as it was. *)
Theorem sequential_full_cycle (c : AntiCrawlConfig) (g : rng) :
  enable_proxy_rotation c = true →
  proxy_rotation_mode c = "sequential" →
  current_index (proxy_pool c) < length (proxies (proxy_pool c)) →
  let ps := proxies (proxy_pool c) in
  get_proxy_times (length ps) c g
  = Ok (Some <$> rotate (current_index (proxy_pool c)) (get_proxy_url <$> ps), c, g).
Proof.
  intros Hen Hmode Hlt ps.
  rewrite get_proxy_times_sequential by done. fold ps. cbn zeta.
  do 3 f_equal.
  - rewrite <- (seq_rotate (get_proxy_url <$> ps)) by (by rewrite length_fmap).
    rewrite length_fmap. apply list_fmap_ext. intros _ i _.
    by rewrite list_lookup_fmap.
  - replace ((current_index (proxy_pool c) + length ps) mod length ps)
      with (current_index (proxy_pool c)).
    + by destruct c as [? ? ? ? ? ? ? [? ?]].
    + rewrite <- Nat.Div0.add_mod_idemp_r, Nat.Div0.mod_same, Nat.add_0_r.
      by rewrite Nat.mod_small.
Qed.


Lemma get_proxy_ok (c : AntiCrawlConfig) (g : rng) :
  cursor_ok (proxy_pool c) →
  ∃ o c' g',
    get_proxy c g = Ok (o, c', g') ∧
    cursor_ok (proxy_pool c') ∧
    proxies (proxy_pool c') = proxies (proxy_pool c) ∧
    enable_proxy_rotation c' = enable_proxy_rotation c ∧
    proxy_rotation_mode c' = proxy_rotation_mode c ∧
    (o = None ↔ enable_proxy_rotation c = false ∨ proxies (proxy_pool c) = []) ∧
    (∀ u, o = Some u → ∃ q, q ∈ proxies (proxy_pool c) ∧ u = get_proxy_url q).
Proof.
  intros Hok. unfold get_proxy, is_available.
  destruct (enable_proxy_rotation c) eqn:Hen; cbn [negb orb].
  2:{ exists None, c, g. rewrite Hen. repeat split; try done. by left. }
  destruct (proxies (proxy_pool c)) as [|q0 l] eqn:Hps.
  { cbn. exists None, c, g. rewrite Hen, Hps. repeat split; try done. by right. }
  rewrite bool_decide_eq_true_2 by (simpl; lia). cbn [negb].
  destruct (String.eqb (proxy_rotation_mode c) "sequential").
  - destruct (get_next_ok _ Hok) as (x & p' & -> & Hok' & Hp' & Hx & Hnone).
    cbn [res_bind]. eexists _, _, _. split; [done|]. cbn.
    split; [done|]. split; [by rewrite Hp'|]. split; [done|]. split; [done|].
    rewrite Hps in Hnone, Hx. split.
    + destruct x as [q|]; [|destruct Hnone as [Hn _]; by specialize (Hn eq_refl)].
      cbn. split; [done|]. by intros [?|?].
    + intros u. destruct x as [q|]; [|done]. intros [= <-]. exists q. split; [|done].
      by apply Hx.
  - destruct (get_random_ok (proxy_pool c) g) as (x & g' & -> & Hx & Hnone).
    cbn [res_bind]. eexists _, _, _. split; [done|].
    split; [done|]. split; [done|]. split; [done|]. split; [done|].
    rewrite Hps in Hnone, Hx. split.
    + destruct x as [q|]; [|destruct Hnone as [Hn _]; by specialize (Hn eq_refl)].
      cbn. split; [done|]. by intros [?|?].
    + intros u. destruct x as [q|]; [|done]. intros [= <-]. exists q. split; [|done].
      by apply Hx.
Qed.

Lemma get_proxy_times_ok (n : nat) :
  ∀ (c : AntiCrawlConfig) (g : rng),
  cursor_ok (proxy_pool c) →
  ∃ os c' g',
    get_proxy_times n c g = Ok (os, c', g') ∧ length os = n ∧
    cursor_ok (proxy_pool c') ∧
    proxies (proxy_pool c') = proxies (proxy_pool c) ∧
    Forall (λ o, (o = None ↔
                    enable_proxy_rotation c = false ∨ proxies (proxy_pool c) = []) ∧
                 ∀ u, o = Some u →
                      ∃ q, q ∈ proxies (proxy_pool c) ∧ u = get_proxy_url q) os.
Proof.
  induction n as [|n IH]; intros c g Hok.
  - exists [], c, g. done.
  - cbn [get_proxy_times].
    destruct (get_proxy_ok c g Hok) as (o & c1 & g1 & -> & Hok1 & Hp1 & Hen1 & _ & Hnone & Hsome).
    destruct (IH c1 g1 Hok1) as (os & c' & g' & Hrun & Hlen & Hok' & Hp' & Hos).
    cbn [res_bind]. rewrite Hrun. cbn [res_bind].
    eexists _, _, _. split; [done|]. split; [simpl; lia|]. split; [done|].
    split; [by rewrite Hp', Hp1|].
    constructor.
    + done.
    + rewrite Hp1, Hen1 in Hos. exact Hos.
Qed.

(** X3.  A policy built by [AntiCrawlConfig.__init__], whatever its
    arguments: any number of [get_proxy] calls succeed and leave the pool
    as it is; a call returns [None] only when proxy rotation is off or the
    pool empty, and otherwise the URL of a pool entry. *)
Theorem get_proxy_never_raises
    (pr ur rd rh bh : bool) (mode : string) (custom : option (list string))
    (mobile : bool) (ps : option (list ProxyConfig)) (g : rng) (n : nat) :
  let c := AntiCrawlConfig_init pr ur rd rh bh mode custom mobile ps in
  ∃ os c' g',
    get_proxy_times n c g = Ok (os, c', g') ∧ length os = n ∧
    proxies (proxy_pool c') = default [] ps ∧
    ∀ o, o ∈ os →
      match o with
      | None => pr = false ∨ default [] ps = []
      | Some u => pr = true ∧ ∃ q, q ∈ default [] ps ∧ u = get_proxy_url q
      end.
Proof.
  intros c.
  destruct (get_proxy_times_ok n c g (cursor_ok_init ps))
    as (os & c' & g' & Hrun & Hlen & _ & Hp & Hos).
  exists os, c', g'. split; [done|]. split; [done|]. split; [done|].
  intros o Ho. rewrite Forall_forall in Hos. destruct (Hos o Ho) as [Hnone Hsome].
  destruct o as [u|].
  - split; [|by apply Hsome]. destruct pr; [done|].
    destruct Hnone as [_ Hn]. by specialize (Hn (or_introl eq_refl)).
  - by apply Hnone.
Qed.

(** X4.  With proxy rotation on, a mode other than sequential and a
    non-empty pool, [get_proxy] returns the URL of a pool entry, consumes
    one draw and leaves the policy, its cursor included, unchanged. *)
Theorem get_proxy_random_member (c : AntiCrawlConfig) (g : rng) :
  enable_proxy_rotation c = true →
  proxy_rotation_mode c ≠ "sequential" →
  proxies (proxy_pool c) ≠ [] →
  ∃ q, q ∈ proxies (proxy_pool c) ∧
       get_proxy c g = Ok (Some (get_proxy_url q), c, (next g).2).
Proof.
  intros Hen Hmode Hne.
  unfold get_proxy, is_available. rewrite Hen.
  destruct (proxies (proxy_pool c)) as [|q0 l] eqn:Hps; [done|].
  rewrite bool_decide_eq_true_2 by (simpl; lia). cbn [negb orb].
  apply String.eqb_neq in Hmode. rewrite Hmode.
  unfold ProxyPool_get_random. rewrite Hps.
  unfold choice. destruct (next g) as [r g'] eqn:Hn. cbn [res_bind fmap option_fmap option_map snd].
  eexists. split; [|reflexivity].
  apply list_elem_of_In, nth_In. apply Nat.mod_upper_bound. simpl. lia.
Qed.
End PoolFacts.

Section PyStrFacts.
Import Re Str PyStr.

Lemma list_ascii_app (a b : string) :
  list_ascii_of_string (a +:+ b) = list_ascii_of_string a ++ list_ascii_of_string b.
Proof. induction a as [|c a IH]; [done|]. simpl. by rewrite IH. Qed.

Lemma starts_with_app (sep cs : list ascii) : starts_with sep (sep ++ cs) = true.
Proof.
  induction sep as [|a sep IH]; [done|]. simpl.
  by rewrite Ascii.eqb_refl.
Qed.

Lemma starts_with_prefix (sep cs : list ascii) :
  starts_with sep cs = true ↔ ∃ r, cs = sep ++ r.
Proof.
  split.
  - revert cs. induction sep as [|a sep IH]; intros cs H; [by exists cs|].
    destruct cs as [|c cs]; [done|]. simpl in H.
    apply andb_true_iff in H as [Hc H]. apply Ascii.eqb_eq in Hc as ->.
    destruct (IH _ H) as [r ->]. by exists r.
  - intros [r ->]. apply starts_with_app.
Qed.

Lemma split_go_nonnil sep k cs : split_go sep k cs ≠ [].
Proof.
  revert k. induction cs as [|c cs IH]; intros k; [done|].
  cbn [split_go]. destruct k as [|k]; [|apply IH].
  destruct (starts_with sep (c :: cs)); [done|].
  by destruct (split_go sep 0 cs).
Qed.

Lemma str_join_cons sep x xs :
  xs ≠ [] → join sep (x :: xs) = x ++ sep ++ join sep xs.
Proof. by destruct xs. Qed.

Lemma str_join_cons_head sep c x xs :
  join sep ((c :: x) :: xs) = c :: join sep (x :: xs).
Proof. by destruct xs. Qed.

(** [sep.join(s.split(sep)) == s] *)
Lemma join_split_go sep cs :
  sep ≠ [] → ∀ k, join sep (split_go sep k cs) = drop k cs.
Proof.
  intros Hsep. induction cs as [|c cs IH]; intros k.
  - by destruct k.
  - cbn [split_go]. destruct k as [|k]; [|by rewrite IH].
    destruct (starts_with sep (c :: cs)) eqn:Hs.
    + apply starts_with_prefix in Hs as [r Hr].
      rewrite str_join_cons by apply split_go_nonnil.
      rewrite IH. destruct sep as [|a sep]; [done|].
      injection Hr as -> ->.
      replace (length (a :: sep) - 1) with (length sep) by (simpl; lia).
      rewrite drop_app_length. done.
    + specialize (IH 0). destruct (split_go sep 0 cs) as [|x xs] eqn:Hx.
      * by apply split_go_nonnil in Hx.
      * rewrite str_join_cons_head, IH. done.
Qed.

Lemma join_split sep cs : sep ≠ [] → join sep (split sep cs) = cs.
Proof. intros. unfold split. by rewrite join_split_go. Qed.

Lemma split_no_occurrence sep cs :
  occurs_not sep cs = true → split sep cs = [cs].
Proof.
  unfold split. induction cs as [|c cs IH]; [done|].
  cbn [occurs_not split_go]. intros H.
  apply andb_true_iff in H as [Hs H]. apply negb_true_iff in Hs.
  rewrite Hs. by rewrite IH.
Qed.

Lemma contains_elem_of c cs : contains c cs = true ↔ c ∈ cs.
Proof.
  unfold contains. induction cs as [|x cs IH]; simpl.
  - split; [done|]. by intros ?%not_elem_of_nil.
  - rewrite orb_true_iff, IH, elem_of_cons, Ascii.eqb_eq. done.
Qed.

Lemma occurs_not_char c cs : occurs_not [c] cs = negb (contains c cs).
Proof.
  induction cs as [|x cs IH]; [done|].
  cbn [occurs_not starts_with contains existsb]. rewrite IH.
  rewrite andb_true_r, negb_orb. unfold contains. done.
Qed.

(** Splitting at a single character distributes over a separator. *)
Lemma split_char_app c a b :
  split [c] (a ++ c :: b) = split [c] a ++ split [c] b.
Proof.
  unfold split. induction a as [|x a IH].
  - cbn [app split_go starts_with length Nat.sub]. rewrite Ascii.eqb_refl. done.
  - cbn [app split_go starts_with length Nat.sub]. rewrite !andb_true_r.
    destruct (Ascii.eqb c x); [by rewrite IH|].
    rewrite IH. destruct (split_go [c] 0 a) as [|p ps] eqn:Hp; [|done].
    by apply split_go_nonnil in Hp.
Qed.

(** No piece of a split contains the separator. *)
Lemma split_go_pieces sep cs :
  sep ≠ [] →
  ∀ k, Forall (λ piece, occurs_not sep piece = true) (split_go sep k cs) ∧
       (k = 0 → ∃ piece pieces r, split_go sep 0 cs = piece :: pieces ∧ cs = piece ++ r).
Proof.
  intros Hsep. induction cs as [|c cs IH]; intros k.
  - split.
    + destruct k; repeat constructor; cbn; by destruct sep.
    + intros _. exists [], [], []. done.
  - cbn [split_go]. destruct k as [|k].
    + destruct (starts_with sep (c :: cs)) eqn:Hs.
      * split.
        -- constructor; [cbn; by destruct sep|]. apply IH.
        -- intros _. by exists [], (split_go sep (length sep - 1) cs), (c :: cs).
      * destruct (IH 0) as [Hall Hpre].
        destruct (Hpre eq_refl) as (p & ps & r & Hp & Hr).
        rewrite Hp in *. apply Forall_cons in Hall as [Hp1 Hps].
        split.
        -- constructor; [|done]. cbn [occurs_not]. rewrite Hp1, andb_true_r.
           apply negb_true_iff. apply not_true_is_false. intros Hc.
           apply starts_with_prefix in Hc as [r' Hr'].
           apply not_true_iff_false in Hs. apply Hs.
           apply starts_with_prefix. exists (r' ++ r).
           rewrite Hr. rewrite (assoc_L app), <- Hr'. done.
        -- intros _. exists (c :: p), ps, r. by rewrite Hr.
    + split; [apply IH|done].
Qed.

Lemma split_pieces sep cs piece :
  sep ≠ [] → piece ∈ split sep cs → occurs_not sep piece = true.
Proof.
  intros Hsep Hin. destruct (split_go_pieces sep cs Hsep 0) as [Hall _].
  rewrite Forall_forall in Hall. by apply Hall.
Qed.

End PyStrFacts.

Section SetupFacts.
Import Random AntiCrawl Re Str PyStr ProxyOps Setup.

Lemma split_go_skip sep t b :
  split_go sep (length t) (t ++ b) = split_go sep 0 b.
Proof. induction t as [|x t IH]; [done|]. exact IH. Qed.

Lemma split_at_first (c0 : ascii) (sep' a b : list ascii) :
  contains c0 a = false →
  split (c0 :: sep') (a ++ (c0 :: sep') ++ b) = a :: split (c0 :: sep') b.
Proof.
  unfold split. induction a as [|x a IH]; intros Hc.
  - change ([] ++ (c0 :: sep') ++ b) with (c0 :: (sep' ++ b)).
    cbn [split_go]. 
    pose proof (starts_with_app (c0 :: sep') b) as Hs. cbn [app] in Hs.
    rewrite Hs. f_equal.
    replace (length (c0 :: sep') - 1) with (length sep') by (simpl; lia).
    apply split_go_skip.
  - cbn [contains existsb] in Hc. apply orb_false_iff in Hc as [Hx Hc].
    cbn [app split_go starts_with]. rewrite Hx. cbn [andb].
    specialize (IH Hc). cbn [app] in IH. by rewrite IH.
Qed.


Lemma ProxyType_of_value_inv v t :
  ProxyType_of_value v = Some t → v = list_ascii_of_string (ProxyType_value t).
Proof.
  unfold ProxyType_of_value. repeat case_decide; intros [= <-]; done.
Qed.





Lemma parse_entries_split cs :
  parse_entries cs = omap parse_entry (split (list_ascii_of_string ",") cs).
Proof. by destruct cs. Qed.

Lemma parse_entries_app a b :
  parse_entries (a ++ "," %char :: b) = parse_entries a ++ parse_entries b.
Proof.
  rewrite !parse_entries_split.
  change (list_ascii_of_string ",") with [","%char].
  by rewrite split_char_app, omap_app.
Qed.

(** X5.  The proxy list is parsed entry by entry: the proxies read from
    [a,b] are those read from [a] followed by those read from [b], so a
    malformed entry never affects its neighbours and the order of the
    entries is kept. *)
Theorem parse_proxy_list_app (a b : string) :
  parse_proxy_list (a +:+ "," +:+ b) = parse_proxy_list a ++ parse_proxy_list b.
Proof.
  unfold parse_proxy_list, appended.
  rewrite !list_ascii_app. change (list_ascii_of_string ",") with [","%char].
  cbn [app]. by rewrite parse_entries_app, omap_app.
Qed.








Lemma string_of_list_app (a b : list ascii) :
  string_of_list_ascii (a ++ b) = string_of_list_ascii a +:+ string_of_list_ascii b.
Proof. induction a as [|c a IH]; [done|]. simpl. by rewrite IH. Qed.

Lemma split_two sep e a b :
  sep ≠ [] → split sep e = [a; b] → e = a ++ sep ++ b.
Proof.
  intros Hsep H. pose proof (join_split sep e Hsep) as Hj.
  rewrite H in Hj. by rewrite <- Hj.
Qed.

(** X7.  An entry the parser accepts has the shape scheme, [://],
    optionally user, colon, password and at sign, then host, with the
    fields it stored; so [get_proxy_url] prints the entry back, except that
    an entry with an empty user name or password is printed without
    credentials. *)
Theorem parse_proxy_reads_scheme_auth_host (e : list ascii) (p : ProxyConfig) :
  parse_proxy e = Appended p →
  match username p, password p with
  | None, None =>
      string_of_list_ascii e = ProxyType_value (proxy_type p) +:+ "://" +:+ url p ∧
      get_proxy_url p = string_of_list_ascii e
  | Some u, Some w =>
      string_of_list_ascii e =
        ProxyType_value (proxy_type p) +:+ "://" +:+ u +:+ ":" +:+ w +:+ "@" +:+ url p ∧
      get_proxy_url p =
        (if bool_decide (u ≠ "" ∧ w ≠ "") then string_of_list_ascii e
         else ProxyType_value (proxy_type p) +:+ "://" +:+ url p)
  | _, _ => False
  end.
Proof.
  assert (list_ascii_of_string "://" ≠ []) as Hs1 by done.
  assert (list_ascii_of_string "@" ≠ []) as Hs2 by done.
  assert (list_ascii_of_string ":" ≠ []) as Hs3 by done.
  unfold parse_proxy.
  destruct (contains "@" e) eqn:Hat.
  - destruct (split (list_ascii_of_string "://") e) as [|proto [|rest [|]]] eqn:H1; try done.
    destruct (split (list_ascii_of_string "@") rest) as [|auth [|host [|]]] eqn:H2; try done.
    destruct (split (list_ascii_of_string ":") auth) as [|user [|pass [|]]] eqn:H3; try done.
    unfold make_proxy. destruct (ProxyType_of_value proto) as [t|] eqn:Ht; [|done].
    intros [= <-]. cbn [username password url proxy_type fmap option_fmap option_map fst snd].
    apply ProxyType_of_value_inv in Ht.
    apply split_two in H1, H2, H3; try done.
    assert (string_of_list_ascii e =
      ProxyType_value t +:+ "://" +:+ string_of_list_ascii user +:+ ":" +:+
      string_of_list_ascii pass +:+ "@" +:+ string_of_list_ascii host) as He.
    { rewrite H1, H2, H3, Ht. rewrite <- !(assoc_L app).
      rewrite !string_of_list_app, !string_of_list_ascii_of_string. done. }
    split; [done|]. unfold get_proxy_url.
    cbn [username password url proxy_type default]. unfold id.
    destruct user as [|c1 user], pass as [|c2 pass]; cbn [truthy_str string_of_list_ascii andb];
      try (rewrite bool_decide_eq_false_2 by (intros [? ?]; done); done).
    rewrite bool_decide_eq_true_2 by done. by rewrite He.
  - destruct (split (list_ascii_of_string "://") e) as [|proto [|host [|]]] eqn:H1; try done.
    unfold make_proxy. destruct (ProxyType_of_value proto) as [t|] eqn:Ht; [|done].
    intros [= <-]. cbn [username password url proxy_type fmap option_fmap option_map].
    apply ProxyType_of_value_inv in Ht.
    apply split_two in H1; try done.
    assert (string_of_list_ascii e =
      ProxyType_value t +:+ "://" +:+ string_of_list_ascii host) as He.
    { rewrite H1, Ht. rewrite !string_of_list_app, !string_of_list_ascii_of_string. done. }
    split; [done|]. by rewrite He.
Qed.

Lemma lstrip_suffix cs : lstrip cs `suffix_of` cs.
Proof.
  induction cs as [|c cs IH]; [done|]. simpl.
  destruct (isspace c); [by apply suffix_cons_r|done].
Qed.

Lemma rstrip_prefix cs : rstrip cs `prefix_of` cs.
Proof.
  induction cs as [|c cs IH]; [done|]. simpl.
  destruct (rstrip cs) as [|r rs] eqn:Hr.
  - destruct (isspace c); [apply prefix_nil|]. by apply prefix_cons, prefix_nil.
  - by apply prefix_cons.
Qed.

Lemma strip_sublist cs : strip cs `sublist_of` cs.
Proof.
  unfold strip.
  destruct (rstrip_prefix (lstrip cs)) as [k1 H1].
  destruct (lstrip_suffix cs) as [k2 H2].
  rewrite H2 at 2. rewrite H1 at 2.
  by apply sublist_inserts_l, sublist_inserts_r.
Qed.

Lemma elem_of_join_sublist (sep x : list ascii) (l : list (list ascii)) :
  x ∈ l → x `sublist_of` join sep l.
Proof.
  induction 1 as [x l|x y l Hin IH].
  - destruct l; [reflexivity|]. cbn [join]. apply sublist_inserts_r. reflexivity.
  - destruct l as [|z l]; [by apply not_elem_of_nil in Hin|].
    cbn [join]. rewrite (assoc_L app). by apply sublist_inserts_l.
Qed.

Lemma parse_custom_agents_elem (custom : string) (ua : string) :
  ua ∈ parse_custom_agents custom →
  ua ≠ "" ∧
  strip (list_ascii_of_string ua) = list_ascii_of_string ua ∧
  (","%char ∉ list_ascii_of_string ua) ∧
  list_ascii_of_string ua `sublist_of` list_ascii_of_string custom.
Proof.
  unfold parse_custom_agents.
  destruct (list_ascii_of_string custom) as [|c0 cs] eqn:Hcs.
  { by intros ?%not_elem_of_nil. }
  rewrite <- Hcs. clear Hcs c0 cs.
  intros (piece & -> & Hin)%list_elem_of_fmap.
  apply list_elem_of_filter in Hin as [Hne Hin].
  rewrite list_ascii_of_string_of_list_ascii.
  split; [by destruct (strip piece)|]. split; [apply strip_idem|].
  assert (piece `sublist_of` list_ascii_of_string custom) as Hsub.
  { pose proof (join_split (list_ascii_of_string ",") (list_ascii_of_string custom)
                  ltac:(done)) as Hj.
    rewrite <- Hj. by apply elem_of_join_sublist. }
  split.
  - intros Hc. apply (λ H, elem_of_sublist _ _ _ H (strip_sublist piece)) in Hc.
    apply contains_elem_of in Hc.
    pose proof (split_pieces (list_ascii_of_string ",") _ _ ltac:(done) Hin) as Ho.
    change (list_ascii_of_string ",") with [","%char] in Ho.
    rewrite occurs_not_char, Hc in Ho. done.
  - etrans; [apply strip_sublist|done].
Qed.

(** X8.  Every custom agent read from [CUSTOM_USER_AGENTS] is non-empty,
    has no leading or trailing white space, contains no comma and is a
    subsequence of the setting. *)
Theorem custom_agents_are_stripped_and_non_empty (custom : string) (ua : string) :
  ua ∈ parse_custom_agents custom →
  ua ≠ "" ∧
  strip (list_ascii_of_string ua) = list_ascii_of_string ua ∧
  (","%char ∉ list_ascii_of_string ua) ∧
  list_ascii_of_string ua `sublist_of` list_ascii_of_string custom.
Proof. apply parse_custom_agents_elem. Qed.

Lemma length_omap_le {A B} (f : A → option B) (l : list A) :
  length (omap f l) ≤ length l.
Proof.
  induction l as [|x l IH]; [done|]. cbn [omap list_omap].
  destruct (f x); simpl; lia.
Qed.

Lemma length_build_pool (custom : list string) (mobile : bool) :
  length (_build_pool custom mobile)
  = 8 + (if mobile then 4 else 0) + length custom.
Proof.
  unfold _build_pool.
  destruct mobile, custom as [|x custom]; rewrite ?length_app; simpl; lia.
Qed.

(** X9.  The counts of [get_config_info] are upper bounds on what the
    policy holds: [proxy_count] of [to_dict] is at most the [proxy_count]
    of config.py, and [user_agent_count] is at most 8 desktop agents, plus
    4 mobile ones when asked for, plus [custom_user_agents_count]. *)
Theorem reported_proxy_count_bounds_pool (S : Settings) :
  let c := _create_default_anti_crawl_config S in
  proxy_count c ≤ config_proxy_count S ∧
  user_agent_count c
  ≤ 8 + (if USE_MOBILE_AGENTS S then 4 else 0) + config_custom_user_agents_count S.
Proof.
  intros c. unfold c, ProxyOps.proxy_count, ProxyOps.user_agent_count,
    _create_default_anti_crawl_config, config_proxy_count,
    config_custom_user_agents_count.
  destruct (ANTI_CRAWL_ENABLED S); cbn [negb].
  2:{ split; [simpl; lia|].
      cbn [AntiCrawlConfig_init user_agent_pool UserAgentPool_init pool default].
      rewrite length_build_pool. simpl. lia. }
  cbn [AntiCrawlConfig_init proxy_pool ProxyPool_init proxies default
       user_agent_pool UserAgentPool_init pool].
  split.
  - unfold parse_proxy_list, appended. rewrite parse_entries_split.
    destruct (list_ascii_of_string (PROXY_LIST S)) as [|c0 cs] eqn:Hcs.
    + done.
    + etrans; apply length_omap_le.
  - rewrite length_build_pool. unfold parse_custom_agents.
    destruct (list_ascii_of_string (CUSTOM_USER_AGENTS S)) as [|c0 cs] eqn:Hcs.
    + simpl. lia.
    + lazy beta iota. unfold id. rewrite length_fmap.
      pose proof (length_filter (λ ua, nonempty (strip ua) = true)
                    (split (list_ascii_of_string ",") (c0 :: cs))).
      destruct (USE_MOBILE_AGENTS S); lia.
Qed.



End SetupFacts.

Section SubFacts.
Import Re Str Normalizer.

Lemma groups_weaken (pre mid : list ascii) (gs : list (nat * list ascii)) :
  Forall (λ ng, ng.2 `sublist_of` pre) gs →
  Forall (λ ng, ng.2 `sublist_of` pre ++ mid) gs.
Proof.
  intros H. eapply Forall_impl; [exact H|].
  intros ng Hng. by apply sublist_inserts_r.
Qed.

Lemma one_sound (f : ascii → bool) s k e pre :
  one f s k = Some e →
  Forall (λ ng, ng.2 `sublist_of` pre) (groups s) →
  ∃ s' mid, k s' = Some e ∧ rest s = mid ++ rest s' ∧
            Forall (λ ng, ng.2 `sublist_of` pre ++ mid) (groups s').
Proof.
  unfold one, step. destruct (rest s) as [|c cs] eqn:Hr; [done|].
  destruct (f c); [|done]. intros Hk Hg.
  eexists _, [c]. split; [exact Hk|]. split; [done|]. by apply groups_weaken.
Qed.

Lemma literal_sound g : ∀ s s',
  literal g s = Some s' → rest s = g ++ rest s' ∧ groups s' = groups s.
Proof.
  induction g as [|c g IH]; intros s s'; simpl.
  - by intros [= ->].
  - unfold step. destruct (rest s) as [|x cs] eqn:Hr; [done|].
    destruct (Ascii.eqb x c) eqn:Hx; [|done]. apply Ascii.eqb_eq in Hx as ->.
    intros H. apply IH in H as [H1 H2]. simpl in *. by rewrite H1.
Qed.

Lemma get_group_elem n gs g : get_group n gs = Some g → (n, g) ∈ gs.
Proof.
  induction gs as [|[i x] gs IH]; [done|]. simpl.
  destruct (i =? n) eqn:Hi.
  - apply Nat.eqb_eq in Hi as ->. intros [= ->]. by left.
  - intros H. right. by apply IH.
Qed.

Lemma stay_sound (s : mstate) (k : mstate → option mstate) e pre :
  k s = Some e →
  Forall (λ ng, ng.2 `sublist_of` pre) (groups s) →
  ∃ s' mid, k s' = Some e ∧ rest s = mid ++ rest s' ∧
            Forall (λ ng, ng.2 `sublist_of` pre ++ mid) (groups s').
Proof.
  intros Hk Hg. exists s, []. split; [done|]. split; [done|].
  by apply groups_weaken.
Qed.

(** Whatever the matcher hands to its continuation lies further on in the
    subject, and every group it has captured is a subsequence of the text
    before that position. *)
Lemma m_sound (r : regex) : ∀ s k e pre,
  m r s k = Some e →
  Forall (λ ng, ng.2 `sublist_of` pre) (groups s) →
  ∃ s' mid, k s' = Some e ∧ rest s = mid ++ rest s' ∧
            Forall (λ ng, ng.2 `sublist_of` pre ++ mid) (groups s').
Proof.
  induction r as [|c|d|neg cs| |ml|r1 IH1 r2 IH2|r1 IH1 r2 IH2|greedy r IH|n r IH|n];
    intros s k e pre Hm Hg; cbn [m] in Hm.
  - by apply stay_sound.
  - by eapply one_sound.
  - by eapply one_sound.
  - by eapply one_sound.
  - by eapply one_sound.
  - destruct (at_bol ml s); [|done]. by apply stay_sound.
  - apply (IH1 _ _ _ pre) in Hm as (s1 & mid1 & Hm & Hr1 & Hg1); [|done].
    apply (IH2 _ _ _ (pre ++ mid1)) in Hm as (s2 & mid2 & Hm & Hr2 & Hg2); [|done].
    exists s2, (mid1 ++ mid2). split; [done|].
    split; [by rewrite Hr1, Hr2, (assoc_L app)|].
    by rewrite (assoc_L app).
  - destruct (m r1 s k) as [e1|] eqn:H1.
    + injection Hm as ->. by eapply IH1.
    + by eapply IH2.
  - revert Hm. generalize (length (rest s)) at 1. intros fuel.
    revert s pre e Hg. induction fuel as [|fuel IHf]; intros s pre e Hg Hm.
    + by apply stay_sound.
    + assert (∀ e0, m r s (λ s', if length (rest s') <? length (rest s)
                then (fix loop (fuel : nat) (s : mstate) {struct fuel} : option mstate :=
         match fuel with
         | 0 => k s
         | S fuel' =>
             let again (_ : unit) :=
               m r s (fun s' =>
                 if (length (rest s') <? length (rest s))%nat
                 then loop fuel' s' else None) in
             if greedy
             then match again () with Some e => Some e | None => k s end
             else match k s with Some e => Some e | None => again () end
         end) fuel s' else None) = Some e0 →
         ∃ s' mid, k s' = Some e0 ∧ rest s = mid ++ rest s' ∧
            Forall (λ ng, ng.2 `sublist_of` pre ++ mid) (groups s')) as Hagain.
      { intros e0 Ha.
        apply (IH _ _ _ pre) in Ha as (s1 & mid1 & Ha & Hr1 & Hg1); [|done].
        destruct (length (rest s1) <? length (rest s)); [|done].
        apply (IHf _ (pre ++ mid1) _ Hg1) in Ha as (s2 & mid2 & Ha & Hr2 & Hg2).
        exists s2, (mid1 ++ mid2). split; [done|].
        split; [by rewrite Hr1, Hr2, (assoc_L app)|].
        by rewrite (assoc_L app). }
      cbn zeta in Hm. destruct greedy.
      * match type of Hm with
        | match ?a with _ => _ end = _ => destruct a as [e1|] eqn:Ha
        end.
        -- injection Hm as ->. by apply Hagain.
        -- by apply stay_sound.
      * destruct (k s) as [e1|] eqn:Hk.
        -- injection Hm as ->. by apply stay_sound.
        -- by apply Hagain.
  - apply (IH _ _ _ pre) in Hm as (s1 & mid & Hm & Hr & Hg1); [|done].
    eexists _, mid. split; [exact Hm|]. cbn [set_group rest groups].
    split; [done|]. constructor; [|done]. cbn [snd].
    unfold consumed. rewrite Hr, length_app.
    replace (length mid + length (rest s1) - length (rest s1)) with (length mid) by lia.
    rewrite take_app_length. by apply sublist_inserts_l.
  - destruct (get_group n (groups s)) as [g|] eqn:Hgr; [|done].
    destruct (literal g s) as [s'|] eqn:Hl; [|done].
    apply literal_sound in Hl as [Hr Hgs].
    exists s', g. split; [done|]. split; [done|].
    rewrite Hgs. by apply groups_weaken.
Qed.

Lemma re_match_sound r p cs e :
  re_match r p cs = Some e →
  ∃ mid, cs = mid ++ rest e ∧ Forall (λ ng, ng.2 `sublist_of` mid) (groups e).
Proof.
  unfold re_match. intros Hm.
  apply (m_sound _ _ _ _ []) in Hm as (s' & mid & [= ->] & Hr & Hg); [|done].
  by exists mid.
Qed.

Lemma expand_sublist (t : list titem) e mid :
  t = [] ∨ (∃ n, t = [TGroup n]) →
  Forall (λ ng, ng.2 `sublist_of` mid) (groups e) →
  expand t e `sublist_of` mid.
Proof.
  intros [->|[n ->]] Hg; unfold expand; simpl.
  - apply sublist_nil_l.
  - rewrite app_nil_r. destruct (get_group n (groups e)) as [g|] eqn:Hgr; simpl.
    + apply get_group_elem in Hgr. rewrite Forall_forall in Hg.
      by apply (Hg _ Hgr).
    + apply sublist_nil_l.
Qed.

Lemma sub_loop_sublist (r : regex) (t : list titem) :
  t = [] ∨ (∃ n, t = [TGroup n]) →
  ∀ fuel p cs, sub_loop fuel r t p cs `sublist_of` cs.
Proof.
  intros Ht. induction fuel as [|fuel IH]; intros p cs; [done|].
  cbn [sub_loop].
  assert (match cs with
          | [] => []
          | c :: cs' => c :: sub_loop fuel r t (Some c) cs'
          end `sublist_of` cs) as Hskip.
  { destruct cs as [|c cs]; [done|]. by apply sublist_skip. }
  destruct (re_match r p cs) as [e|] eqn:Hm; [|done].
  apply re_match_sound in Hm as (mid & Hcs & Hg).
  pose proof (expand_sublist t e mid Ht Hg) as Hex.
  destruct (length (rest e) <? length cs) eqn:Hlt.
  - rewrite Hcs. by apply sublist_app.
  - apply Nat.ltb_ge in Hlt. rewrite Hcs, length_app in Hlt.
    assert (mid = []) as -> by (destruct mid; [done|simpl in Hlt; lia]).
    apply sublist_nil_r in Hex. rewrite Hex. done.
Qed.

Lemma sub_sublist (r : regex) (t : list titem) cs :
  t = [] ∨ (∃ n, t = [TGroup n]) → sub r t cs `sublist_of` cs.
Proof. intros. by apply sub_loop_sublist. Qed.

Lemma regex_stage_sublist cs : regex_stage cs `sublist_of` cs.
Proof.
  unfold regex_stage.
  etrans; [apply strip_sublist|].
  repeat (etrans; [apply sub_sublist; eauto|]).
  done.
Qed.

(** X11.  [markdown_to_text_regex] only deletes: its output is a
    subsequence of its input, and so never longer. *)
Theorem regex_stage_only_deletes (s : string) :
  list_ascii_of_string (markdown_to_text_regex s) `sublist_of` list_ascii_of_string s
  ∧ String.length (markdown_to_text_regex s) ≤ String.length s.
Proof.
  unfold markdown_to_text_regex.
  rewrite list_ascii_of_string_of_list_ascii.
  pose proof (regex_stage_sublist (list_ascii_of_string s)) as Hsub.
  split; [done|].
  apply sublist_length in Hsub.
  rewrite <- (string_of_list_ascii_of_string s) at 2.
  revert Hsub. generalize (regex_stage (list_ascii_of_string s)).
  generalize (list_ascii_of_string s). intros a b.
  assert (∀ l, String.length (string_of_list_ascii l) = length l) as Hlen.
  { induction l as [|c l IH]; [done|]. simpl. by rewrite IH. }
  by rewrite !Hlen.
Qed.

Lemma star_greedy_some (r : regex) (s : mstate) (k : mstate → option mstate) :
  (∀ s', is_Some (k s')) → is_Some (m (Star true r) s k).
Proof.
  intros Hk. cbn [m]. destruct (length (rest s)) as [|fuel]; [apply Hk|].
  cbn zeta.
  match goal with
  | |- is_Some (match ?a with _ => _ end) => destruct a
  end; [done|apply Hk].
Qed.

Lemma m_cat r1 r2 s k : m (Cat r1 r2) s k = m r1 s (λ s', m r2 s' k).
Proof. done. Qed.

Lemma m_lit c s k : m (Lit c) s k = one (Ascii.eqb c) s k.
Proof. done. Qed.

Lemma re_heading_hash p cs :
  ∃ e, re_match re_heading p ("#"%char :: cs) = Some e ∧
       length (rest e) ≤ length cs.
Proof.
  unfold re_match, re_heading, Plus.
  rewrite !m_cat, m_lit. unfold one, step. cbn [rest groups]. rewrite Ascii.eqb_refl.
  match goal with
  | |- ∃ e, m (Star true ?r) ?s ?k = Some e ∧ _ =>
      destruct (star_greedy_some r s k) as [e He]
  end.
  { intros s'. apply star_greedy_some. by eexists. }
  exists e. split; [done|].
  apply (m_sound _ _ _ _ []) in He as (s1 & mid1 & He & Hr1 & Hg1); [|by constructor].
  apply (m_sound _ _ _ _ _ He) in Hg1 as (s2 & mid2 & [= ->] & Hr2 & _).
  cbn [rest] in Hr1. rewrite Hr1, Hr2, !length_app. lia.
Qed.

Lemma re_heading_other p c cs :
  c ≠ "#"%char → re_match re_heading p (c :: cs) = None.
Proof.
  intros Hc. unfold re_match, re_heading, Plus.
  rewrite !m_cat, m_lit. unfold one, step. cbn [rest].
  assert (Ascii.eqb "#" c = false) as ->; [|done].
  apply Ascii.eqb_neq. congruence.
Qed.

Lemma sub_heading_no_hash : ∀ fuel p cs,
  length cs < fuel → "#"%char ∉ sub_loop fuel re_heading [] p cs.
Proof.
  induction fuel as [|fuel IH]; intros p cs Hlen; [lia|].
  cbn [sub_loop]. destruct cs as [|c cs].
  - assert (re_match re_heading p [] = None) as -> by done.
    apply not_elem_of_nil.
  - simpl in Hlen. destruct (decide (c = "#"%char)) as [->|Hc].
    + destruct (re_heading_hash p cs) as (e & -> & Hle).
      cbn [length]. rewrite (proj2 (Nat.ltb_lt _ _)) by lia.
      cbn [expand map concat app]. apply IH. lia.
    + rewrite re_heading_other by done.
      apply not_elem_of_cons. split; [done|]. apply IH. lia.
Qed.

Lemma regex_stage_no_hash cs : "#"%char ∉ regex_stage cs.
Proof.
  intros Hin.
  apply (sub_heading_no_hash (S (length cs)) None cs ltac:(lia)).
  fold (sub re_heading [] cs).
  eapply elem_of_sublist; [exact Hin|].
  unfold regex_stage.
  etrans; [apply strip_sublist|].
  do 7 (etrans; [apply sub_sublist; eauto|]).
  done.
Qed.

(** X12.  The output of [markdown_to_text_regex] contains no [#]. *)
Theorem regex_stage_removes_every_hash (s : string) :
  "#"%char ∉ list_ascii_of_string (markdown_to_text_regex s).
Proof.
  unfold markdown_to_text_regex. rewrite list_ascii_of_string_of_list_ascii.
  apply regex_stage_no_hash.
Qed.

(** X13.  On text without markup ([plain]) [markdown_to_text_regex] is
    [str.strip]. *)
Theorem regex_stage_strips_plain_text (s : string) :
  plain s = true →
  markdown_to_text_regex s = string_of_list_ascii (strip (list_ascii_of_string s)).
Proof.
  intros Hp. unfold markdown_to_text_regex. f_equal. by apply regex_stage_plain.
Qed.

End SubFacts.

Section CleanFacts.
Import Re Str PyStr Normalizer.

(** [text.split("\n")] is [split] at the newline. *)
Lemma split_lines_split cs : split_lines cs = split [LF] cs.
Proof.
  unfold split. induction cs as [|c cs IH]; [done|].
  cbn [split_lines split_go starts_with length Nat.sub]. rewrite andb_true_r.
  rewrite (Ascii.eqb_sym c LF). destruct (Ascii.eqb LF c); by rewrite IH.
Qed.

Lemma split_join_char (c : ascii) (ls : list (list ascii)) :
  ls ≠ [] → Forall (λ l, contains c l = false) ls →
  split [c] (join [c] ls) = ls.
Proof.
  induction ls as [|l ls IH]; [done|]. intros _ Hall.
  apply Forall_cons in Hall as [Hl Hall].
  destruct ls as [|l' ls].
  - cbn [join]. apply split_no_occurrence. by rewrite occurs_not_char, Hl.
  - rewrite str_join_cons by done. rewrite split_at_first by done.
    by rewrite IH.
Qed.

Lemma clean_lines_lines (text : list ascii) :
  let lines := strip <$> filter (λ line, nonempty (strip line) = true) (split_lines text) in
  clean_lines text = join [LF] lines ∧
  Forall (λ l, l ≠ [] ∧ strip l = l ∧ contains LF l = false) lines.
Proof.
  intros lines. split; [done|].
  unfold lines. apply Forall_fmap, Forall_forall. intros piece Hin.
  apply list_elem_of_filter in Hin as [Hne Hin]. cbn.
  split; [by destruct (strip piece)|]. split; [apply strip_idem|].
  rewrite split_lines_split in Hin.
  apply split_pieces in Hin; [|done]. rewrite occurs_not_char in Hin.
  apply negb_true_iff in Hin.
  apply not_true_is_false. intros Hc. apply contains_elem_of in Hc.
  apply (λ H, elem_of_sublist _ _ _ H (strip_sublist piece)) in Hc.
  apply contains_elem_of in Hc. congruence.
Qed.

Lemma clean_lines_fixed (ls : list (list ascii)) :
  Forall (λ l, l ≠ [] ∧ strip l = l ∧ contains LF l = false) ls →
  clean_lines (join [LF] ls) = join [LF] ls.
Proof.
  intros Hall. unfold clean_lines.
  destruct ls as [|l0 ls0] eqn:Hls.
  { cbn [join split_lines]. rewrite filter_cons_False by done. done. }
  rewrite <- Hls in *. assert (ls ≠ []) as Hne by (by rewrite Hls). clear Hls.
  rewrite split_lines_split, split_join_char; [|done|].
  2:{ eapply Forall_impl; [exact Hall|]. by intros l (_ & _ & ?). }
  f_equal.
  clear Hne. induction Hall as [|l ls (Hl & Hs & _) Hall IH]; [done|].
  rewrite filter_cons_True by (rewrite Hs; by destruct l).
  cbn [fmap list_fmap]. rewrite Hs. f_equal. exact IH.
Qed.

(** X14.  The cleanup of [markdown_to_text] is idempotent, and its
    output is empty or consists of lines that are non-empty and have no
    leading or trailing white space. *)
Theorem clean_lines_idempotent (text : list ascii) :
  clean_lines (clean_lines text) = clean_lines text ∧
  (clean_lines text = [] ∨
   Forall (λ line, line ≠ [] ∧ strip line = line) (split_lines (clean_lines text))).
Proof.
  destruct (clean_lines_lines text) as [Heq Hall]. cbn zeta in *.
  split.
  - rewrite Heq. by apply clean_lines_fixed.
  - rewrite Heq.
    destruct (strip <$> filter (λ line, nonempty (strip line) = true) (split_lines text))
      as [|l0 ls0] eqn:Hls; [by left|right].
    rewrite <- Hls in *. assert (strip <$> filter (λ line, nonempty (strip line) = true) (split_lines text) ≠ []) as Hne by (by rewrite Hls).
    rewrite split_lines_split, split_join_char; [|done|].
    + eapply Forall_impl; [exact Hall|]. by intros l (? & ? & _).
    + eapply Forall_impl; [exact Hall|]. by intros l (_ & _ & ?).
Qed.

End CleanFacts.

Section CrawlerMore.
Import AntiCrawl Re Str Normalizer Crawler CacheLog.
Context {W : Type} (E : Env W).

Lemma get_results_head rs d :
  get_results (("results", VResults rs) :: d) = Some rs.
Proof. done. Qed.

Lemma get_failed_urls_third x y us d :
  get_failed_urls (("results", x) :: ("success_count", y) :: ("failed_urls", VUrls us) :: d)
  = Some us.
Proof. done. Qed.

Lemma cache_calls_app l1 l2 :
  cache_calls (l1 ++ l2) = cache_calls l1 ++ cache_calls l2.
Proof. apply filter_app. Qed.

Lemma dispatch_trace_no_cache_call urls w :
  cache_calls (trace (dispatch E urls) w) = [].
Proof.
  unfold trace. rewrite dispatch_run. destruct (READER_ENABLED E).
  - destruct (reader_path_run E urls w) as (rs & w' & -> & _). cbn [snd].
    induction urls as [|u urls IH]; [done|]. exact IH.
  - rewrite crawl4ai_path_run. cbn zeta.
    assert (cache_calls (delay_log E) = []) as Hd.
    { unfold delay_log. by destruct (_ && _). }
    cbn zeta.
    destruct (process_results urls 0 _ [] []) as [[all [|u retry]]|e];
      cbn [snd]; by rewrite cache_calls_app, Hd.
Qed.

Lemma cache_calls_get_log urls instruction :
  cache_calls (get_log E urls instruction) = get_log E urls instruction.
Proof. unfold get_log. by destruct (cache_available E). Qed.

Lemma cache_calls_set_log rs instruction :
  cache_calls (set_log E rs instruction) = set_log E rs instruction.
Proof. unfold set_log. by destruct (cache_available E). Qed.

(** X15.  The cache calls of [crawl_urls].  Without an available cache:
    none, no URL counts as cached and every URL is dispatched.  With one:
    one [get_batch] for the whole input first; then nothing more if the
    call raises or every URL was a hit, and otherwise one [set_batch] with
    exactly the freshly fetched results of the response (none of the
    cached ones), which are not empty. *)
Theorem cache_traffic (urls : list string) (instruction : string) (w : W) :
  let cached := (cache_partition E urls instruction).1 in
  let misses := (cache_partition E urls instruction).2 in
  let tr := trace (crawl_urls E urls instruction) w in
  (cache_available E = false → cache_calls tr = [] ∧ cached = [] ∧ misses = urls) ∧
  (cache_available E = true →
   match outcome (crawl_urls E urls instruction) w with
   | Raise _ => cache_calls tr = [EvGetBatch urls instruction]
   | Ok d =>
       match misses with
       | [] => cache_calls tr = [EvGetBatch urls instruction]
       | _ :: _ =>
           ∃ fresh, get_results d = Some (cached ++ fresh) ∧ fresh ≠ [] ∧
             cache_calls tr =
               [EvGetBatch urls instruction;
                EvSetBatch (to_cache_item <$> fresh) instruction]
       end
   end).
Proof.
  intros cached misses tr.
  assert (cache_calls tr =
    get_log E urls instruction ++
    match outcome (crawl_urls E urls instruction) w, misses with
    | Ok d, _ :: _ =>
        set_log E (drop (length cached) (default [] (get_results d))) instruction
    | _, _ => []
    end ∧
    match outcome (crawl_urls E urls instruction) w, misses with
    | Ok d, _ :: _ => ∃ fresh, get_results d = Some (cached ++ fresh) ∧ fresh ≠ []
    | _, _ => True
    end) as [Htr Hfresh].
  { unfold tr, trace, outcome. rewrite crawl_urls_run. cbn zeta.
    fold cached misses. destruct misses as [|u misses'].
    - cbn [fst snd]. by rewrite app_nil_r, cache_calls_get_log.
    - pose proof (dispatch_trace_no_cache_call (u :: misses') w) as Hd.
      unfold trace in Hd.
      destruct (dispatch E (u :: misses') w) as [[[[all failed]|e] w'] log];
        cbn [fst snd] in *.
      + destruct all as [|a all]; cbn [fst snd].
        * by rewrite cache_calls_app, Hd, !app_nil_r, cache_calls_get_log.
        * split.
          -- rewrite !cache_calls_app, Hd, cache_calls_get_log, cache_calls_set_log.
             cbn [app]. f_equal.
             rewrite get_results_head. cbn [default]. unfold cached, id.
             by rewrite drop_app_length.
          -- eexists. split; [apply get_results_head|done].
      + by rewrite cache_calls_app, Hd, !app_nil_r, cache_calls_get_log. }
  split.
  - intros Hoff. rewrite Htr. unfold get_log, set_log. rewrite Hoff.
    split; [by repeat case_match|].
    unfold cached, misses, cache_partition. unfold cache_available in Hoff.
    destruct (cache_manager E) as [cm|]; [|done]. by rewrite Hoff.
  - intros Hon. rewrite Htr. unfold get_log, set_log. rewrite Hon.
    destruct (outcome (crawl_urls E urls instruction) w) as [d|e]; [|done].
    destruct misses as [|u misses']; [done|].
    destruct Hfresh as (fresh & Hres & Hne).
    exists fresh. split; [done|]. split; [done|].
    rewrite Hres. cbn [default]. unfold id. by rewrite drop_app_length.
Qed.



Lemma filter_nil_all {A} (P : A → Prop) `{∀ x, Decision (P x)} (l : list A) x :
  filter P l = [] → x ∈ l → ¬ P x.
Proof.
  intros Hf Hin HP.
  assert (x ∈ filter P l) as Hx by (by apply list_elem_of_filter).
  rewrite Hf in Hx. by apply not_elem_of_nil in Hx.
Qed.

(** X17.  No input URL is dropped, duplicates and misbehaving backends
    included: in every response each input URL is a cache hit, or the
    reference of a freshly fetched result, or listed in [failed_urls]. *)
Theorem no_url_is_dropped
    (urls : list string) (instruction : string) (w : W) (d : response) :
  outcome (crawl_urls E urls instruction) w = Ok d →
  let hits := cache_hits_map E urls instruction in
  ∃ cached fresh failed,
    get_results d = Some (cached ++ fresh) ∧
    get_failed_urls d = Some failed ∧
    cached = omap (λ u, hits !! u) urls ∧
    ∀ url, url ∈ urls →
      is_Some (hits !! url) ∨ url ∈ (reference <$> fresh) ∨ url ∈ failed.
Proof.
  intros Hrun hits.
  pose proof (cache_partition_spec E urls instruction) as Hpart.
  cbn zeta in Hpart. fold hits in Hpart.
  unfold outcome in Hrun. rewrite crawl_urls_run in Hrun. cbn zeta in Hrun.
  rewrite Hpart in Hrun. cbn [fst snd] in Hrun.
  destruct (filter (λ u, hits !! u = None) urls) as [|u misses'] eqn:Hm.
  - cbn [fst] in Hrun. injection Hrun as <-.
    exists (omap (λ u, hits !! u) urls), [], [].
    rewrite app_nil_r. split; [done|]. split; [done|]. split; [done|].
    intros url Hurl. left.
    pose proof (filter_nil_all _ _ _ Hm Hurl) as Hne. cbn in Hne.
    by destruct (hits !! url).
  - destruct (dispatch E (u :: misses') w) as [[[[all failed0]|e] w'] log];
      cbn [fst] in Hrun; [|done].
    destruct all as [|a all]; [done|]. cbn [fst] in Hrun. injection Hrun as <-.
    exists (omap (λ u, hits !! u) urls), (process_result E <$> a :: all),
      (consolidate (a :: all) (u :: misses') failed0).
    split; [apply get_results_head|]. split; [apply get_failed_urls_third|].
    split; [done|].
    intros url Hurl. rewrite reference_processed.
    destruct (hits !! url) as [x|] eqn:Hx; [by left|right].
    destruct (decide (url ∈ reference <$> a :: all)) as [Hin|Hnin]; [by left|right].
    unfold consolidate, crawled_urls. apply elem_of_app. right.
    rewrite <- Hm. apply list_elem_of_filter. split.
    + by rewrite elem_of_list_to_set.
    + by apply list_elem_of_filter.
Qed.

(** X18.  In every response the cached results come first, as stored and
    in input order; the content of each freshly fetched result has no
    leading or trailing white space and no [#]. *)
Theorem fresh_results_are_normalized
    (urls : list string) (instruction : string) (w : W) (d : response) :
  outcome (crawl_urls E urls instruction) w = Ok d →
  let hits := cache_hits_map E urls instruction in
  ∃ fresh,
    get_results d = Some (omap (λ u, hits !! u) urls ++ fresh) ∧
    ∀ x, x ∈ fresh →
      strip (list_ascii_of_string (content x)) = list_ascii_of_string (content x) ∧
      ("#"%char ∉ list_ascii_of_string (content x)).
Proof.
  intros Hrun hits.
  pose proof (cache_partition_spec E urls instruction) as Hpart.
  cbn zeta in Hpart. fold hits in Hpart.
  unfold outcome in Hrun. rewrite crawl_urls_run in Hrun. cbn zeta in Hrun.
  rewrite Hpart in Hrun. cbn [fst snd] in Hrun.
  destruct (filter (λ u, hits !! u = None) urls) as [|u misses'] eqn:Hm.
  - cbn [fst] in Hrun. injection Hrun as <-. exists [].
    rewrite app_nil_r. split; [done|]. by intros x ?%not_elem_of_nil.
  - destruct (dispatch E (u :: misses') w) as [[[[all failed0]|e] w'] log];
      cbn [fst] in Hrun; [|done].
    destruct all as [|a all]; [done|]. cbn [fst] in Hrun. injection Hrun as <-.
    exists (process_result E <$> a :: all).
    split; [apply get_results_head|].
    intros x (y & -> & _)%list_elem_of_fmap. unfold process_result. cbn [content].
    split; [apply normalize_stripped|].
    unfold normalize, markdown_to_text_regex.
    rewrite list_ascii_of_string_of_list_ascii. apply regex_stage_no_hash.
Qed.

(** X19.  With the reader backend [failed_urls] is computed from the
    references, not from the fetch outcomes: it lists, in order, the cache
    misses that are not the reference of any fetched result; there are at
    most as many fresh results as misses. *)
Theorem reader_failed_urls_by_reference
    (urls : list string) (instruction : string) (w : W) (d : response) :
  READER_ENABLED E = true →
  outcome (crawl_urls E urls instruction) w = Ok d →
  let hits := cache_hits_map E urls instruction in
  let misses := filter (λ u, hits !! u = None) urls in
  ∃ cached fresh,
    get_results d = Some (cached ++ fresh) ∧
    length cached + length misses = length urls ∧
    length fresh ≤ length misses ∧
    get_failed_urls d = Some (filter (λ url, url ∉ reference <$> fresh) misses).
Proof.
  intros Hreader Hrun hits misses.
  pose proof (cache_partition_spec E urls instruction) as Hpart.
  cbn zeta in Hpart. fold hits in Hpart. fold misses in Hpart.
  pose proof (length_omap_filter (λ u, hits !! u) urls) as Hlen.
  cbn beta in Hlen. fold misses in Hlen.
  unfold outcome in Hrun. rewrite crawl_urls_run in Hrun. cbn zeta in Hrun.
  rewrite Hpart in Hrun. cbn [fst snd] in Hrun.
  destruct misses as [|u misses'] eqn:Hm.
  - cbn [fst] in Hrun. injection Hrun as <-.
    exists (omap (λ u, hits !! u) urls), []. rewrite app_nil_r.
    split; [done|]. split; [done|]. split; [done|]. done.
  - rewrite dispatch_run, Hreader in Hrun.
    destruct (reader_path_run E (u :: misses') w) as (rs & w' & Hr & Hall).
    rewrite Hr in Hrun.
    destruct (omap id rs) as [|a all] eqn:Hrs; [done|].
    cbn [fst] in Hrun. injection Hrun as <-.
    exists (omap (λ u, hits !! u) urls), (process_result E <$> a :: all).
    split; [apply get_results_head|]. split; [done|].
    split.
    { rewrite length_fmap, <- Hrs. etrans; [apply length_omap_le|].
      by rewrite <- (Forall2_length _ _ _ Hall). }
    rewrite get_failed_urls_third. f_equal.
    unfold consolidate, crawled_urls. cbn [app].
    rewrite reference_processed.
    apply list_filter_iff. intros url. by rewrite elem_of_list_to_set.
Qed.

Lemma count_app_ge (u : string) (l1 l2 : list string) :
  u ∈ l1 → u ∈ l2 → 2 ≤ length (filter (λ v, v = u) (l1 ++ l2)).
Proof.
  intros H1 H2. rewrite filter_app, length_app.
  assert (∀ l : list string, u ∈ l → 1 ≤ length (filter (λ v, v = u) l)) as Hone.
  { intros l Hin. assert (u ∈ filter (λ v, v = u) l) as Hf
      by (by apply list_elem_of_filter).
    destruct (filter (λ v, v = u) l); [by apply not_elem_of_nil in Hf|simpl; lia]. }
  pose proof (Hone _ H1). pose proof (Hone _ H2). lia.
Qed.

(** X20.  A URL that the retry pass gave up and that is not the reference
    of any fetched result is listed at least twice in [failed_urls]: by the
    retry loop and again by the consolidation. *)
Theorem url_failing_both_passes_is_listed_twice
    (urls : list string) (instruction : string) (w : W) (d : response)
    (all : list result_item) (gave_up : list string) (u : string) :
  let misses := (cache_partition E urls instruction).2 in
  outcome (crawl_urls E urls instruction) w = Ok d →
  outcome (dispatch E misses) w = Ok (all, gave_up) →
  u ∈ gave_up →
  (u ∉ reference <$> all) →
  ∃ failed, get_failed_urls d = Some failed ∧
            2 ≤ length (filter (λ v, v = u) failed).
Proof.
  intros misses Hrun Hd Hu Hnot.
  assert (READER_ENABLED E = false) as Hreader.
  { destruct (READER_ENABLED E) eqn:Hr; [|done].
    unfold outcome in Hd. rewrite dispatch_run, Hr in Hd.
    destruct (reader_path_run E misses w) as (rs & w' & Hrr & _).
    rewrite Hrr in Hd. injection Hd as <- <-. by apply not_elem_of_nil in Hu. }
  pose proof (dispatch_submseteq E misses w all gave_up
                ltac:(by rewrite Hreader) Hd) as Hsub.
  unfold outcome in Hrun, Hd. rewrite crawl_urls_run in Hrun. cbn zeta in Hrun.
  fold misses in Hrun.
  destruct misses as [|m0 misses'] eqn:Hm.
  { apply submseteq_nil_r in Hsub. apply app_eq_nil in Hsub as [_ ->].
    by apply not_elem_of_nil in Hu. }
  destruct (dispatch E (m0 :: misses') w) as [[[[all' failed0]|e] w'] log];
    cbn [fst] in *; [|done].
  injection Hd as -> ->.
  destruct all as [|a all]; [done|]. cbn [fst] in Hrun. injection Hrun as <-.
  eexists. split; [apply get_failed_urls_third|].
  unfold consolidate. apply count_app_ge; [done|].
  apply list_elem_of_filter. split.
  - unfold crawled_urls. by rewrite elem_of_list_to_set.
  - eapply elem_of_submseteq; [|exact Hsub]. apply elem_of_app. by right.
Qed.

End CrawlerMore.

Section MoreWorked.
Import Random AntiCrawl Re Str PyStr Normalizer Crawler Examples ProxyOps Setup CacheLog MoreExamples.

(** Three proxies, the cursor on the second. *)
Lemma sequential_full_cycle_witness :
  get_proxy_times 3 mid_cycle_config [] =
    Ok ([Some "http://p1:1"; Some "http://p2:1"; Some "http://p0:1"],
        mid_cycle_config, []).
Proof.
  apply (sequential_full_cycle mid_cycle_config []); [done|done|].
  vm_compute. lia.
Defined.

(** Random mode, three proxies, the draw 7. *)
Lemma get_proxy_random_member_witness :
  ∃ q, q ∈ three_proxies ∧
       get_proxy (random_config three_proxies) [7] =
         Ok (Some (get_proxy_url q), random_config three_proxies, []).
Proof.
  apply (get_proxy_random_member (random_config three_proxies) [7]);
    [done|by intros [=]|by intros [=]].
Defined.


(** An entry with an empty user name: it is read with both credentials,
    and the URL handed to the browser has none. *)
Lemma parse_proxy_reads_scheme_auth_host_witness :
  let p := {| url := "h:80"; proxy_type := HTTP;
              username := Some ""; password := Some "secret" |} in
  parse_proxy (list_ascii_of_string "http://:secret@h:80") = Appended p ∧
  get_proxy_url p = "http://h:80".
Proof.
  intros p. split; [by vm_compute|].
  by destruct (parse_proxy_reads_scheme_auth_host
              (list_ascii_of_string "http://:secret@h:80") p ltac:(by vm_compute))
    as [_ H].
Defined.

(** Two agents around a blank entry. *)
Lemma custom_agents_are_stripped_and_non_empty_witness :
  parse_custom_agents " agentA , ,agentB" = ["agentA"; "agentB"] ∧
  strip (list_ascii_of_string "agentA") = list_ascii_of_string "agentA".
Proof.
  split; [by vm_compute|].
  destruct (custom_agents_are_stripped_and_non_empty " agentA , ,agentB" "agentA")
    as (_ & H & _); [|exact H].
  apply (bool_decide_unpack _). by vm_compute.
Defined.

(** Plain text with white space around it. *)
Lemma regex_stage_strips_plain_text_witness :
  markdown_to_text_regex "  hello world " = "hello world".
Proof. apply (regex_stage_strips_plain_text "  hello world "). by vm_compute. Defined.

(** Engine backend, a fetched, b failing both passes. *)
Lemma no_url_is_dropped_witness :
  ∃ cached fresh failed,
    get_results (half_response [url_b; url_b]) = Some (cached ++ fresh) ∧
    get_failed_urls (half_response [url_b; url_b]) = Some failed ∧
    url_b ∈ failed.
Proof.
  destruct (no_url_is_dropped (env false None (λ _, None) half_engine)
              [url_a; url_b] "q" 0 (half_response [url_b; url_b]))
    as (cached & fresh & failed & Hr & Hf & _ & _); [by vm_compute|].
  exists cached, fresh, failed. split; [done|]. split; [done|].
  vm_compute in Hf. injection Hf as <-. apply (bool_decide_unpack _). by vm_compute.
Defined.

(** The end-to-end example of the specification. *)
Lemma fresh_results_are_normalized_witness :
  ∃ fresh,
    get_results spec_response = Some ([] ++ fresh) ∧
    ∀ x, x ∈ fresh →
      strip (list_ascii_of_string (content x)) = list_ascii_of_string (content x) ∧
      ("#"%char ∉ list_ascii_of_string (content x)).
Proof.
  apply (fresh_results_are_normalized (spec_env table_lib)
           [url_a; url_b] "weather today" 0 spec_response).
  by vm_compute.
Defined.

(** Reader backend, a fetched, b failing. *)
Lemma reader_failed_urls_by_reference_witness :
  ∃ cached fresh,
    get_results (half_response [url_b]) = Some (cached ++ fresh) ∧
    get_failed_urls (half_response [url_b])
    = Some (filter (λ url, url ∉ reference <$> fresh) [url_a; url_b]).
Proof.
  destruct (reader_failed_urls_by_reference
              (env true None half_reader failing_engine)
              [url_a; url_b] "q" 0 (half_response [url_b]))
    as (cached & fresh & Hr & _ & _ & Hf); [done|by vm_compute|].
  by exists cached, fresh.
Defined.

(** Engine backend, b failing both passes. *)
Lemma url_failing_both_passes_is_listed_twice_witness :
  ∃ failed, get_failed_urls (half_response [url_b; url_b]) = Some failed ∧
            2 ≤ length (filter (λ v, v = url_b) failed).
Proof.
  apply (url_failing_both_passes_is_listed_twice
           (env false None (λ _, None) half_engine)
           [url_a; url_b] "q" 0 (half_response [url_b; url_b])
           [{| content := doc_b; reference := url_a |}] [url_b] url_b).
  - by vm_compute.
  - by vm_compute.
  - apply (bool_decide_unpack _). by vm_compute.
  - apply (bool_decide_unpack _). by vm_compute.
Defined.

End MoreWorked.

Section HeaderFacts.
Import Random AntiCrawl.

Lemma choice_next {A} (xs : list A) (g : rng) :
  xs ≠ [] → ∃ x, choice xs g = Ok (x, (next g).2) ∧ x ∈ xs.
Proof.
  intros Hne. destruct (choice_ok xs g Hne) as (x & g' & Hc & Hin).
  exists x. split; [|done]. rewrite Hc.
  destruct xs as [|x0 xs]; [done|]. unfold choice in Hc.
  destruct (next g) as [r g1]. by injection Hc as _ <-.
Qed.

(** X21.  [generate_headers] never raises.  The mapping it returns has
    pairwise distinct keys: the eleven fixed ones, with the given
    User-Agent and an Accept-Language out of the three locale strings, and
    a Referer, out of the four referrer URLs, exactly when
    [include_referer] is set; it consumes one draw, or two with the
    Referer. *)
Theorem generate_headers_shape (ua : string) (include_referer : bool) (g : rng) :
  ∃ hs,
    generate_headers ua include_referer g
    = Ok (hs, if include_referer then (next (next g).2).2 else (next g).2) ∧
    NoDup (fst <$> hs) ∧
    length hs = (if include_referer then 12 else 11) ∧
    header "User-Agent" hs = Some ua ∧
    (∃ lang, header "Accept-Language" hs = Some lang ∧ lang ∈ ACCEPT_LANGUAGES) ∧
    (if include_referer
     then ∃ ref, header "Referer" hs = Some ref ∧ ref ∈ REFERERS
     else header "Referer" hs = None).
Proof.
  destruct (choice_next ACCEPT_LANGUAGES g) as (lang & Hl & Hlin); [done|].
  unfold generate_headers. rewrite Hl. cbn [res_bind].
  destruct include_referer.
  - destruct (choice_next REFERERS (next g).2) as (ref & Hr & Hrin); [done|].
    rewrite Hr. cbn [res_bind]. eexists. split; [done|].
    split; [apply (bool_decide_unpack _); by vm_compute|].
    split; [done|]. split; [done|]. split; [by exists lang|]. by exists ref.
  - eexists. split; [done|].
    split; [apply (bool_decide_unpack _); by vm_compute|].
    split; [done|]. split; [done|]. split; [by exists lang|]. done.
Qed.

End HeaderFacts.
